(** * A chat relay: the server's registry, broadcaster and connection handler,
      and the terminal client that talks to it.

    Shallow embedding of [Client.cpp] (the client program, lines 1-74, and
    the server program, lines 368-536).  The C++ code is modelled as it is
    written: the two process-wide collections [clients] and [clientNames],
    the mutex [clients_mutex], the functions [broadcastMessage],
    [handleClient] and [main].  Network and console effects are recorded as
    a chronological list of events; the threads of the server are
    interleaved at their blocking calls and between their critical
    sections.

    Not modelled: the addresses and ports given to Winsock, the numeric
    error code appended to some console lines, and C++ exceptions (the
    [catch] clauses of [handleClient] only log). *)

From Stdlib Require Import Ascii String ZArith.
From stdpp Require Import base option list gmap strings.

Local Open Scope Z_scope.

(** ** Winsock values *)

(** [SOCKET] is an unsigned integer handle. *)
Abbreviation SOCKET := Z (only parsing).

Definition SOCKET_ERROR : Z := -1.
Definition INVALID_SOCKET : Z := 2 ^ 64 - 1.

(** Size of the receive buffer [char buf[4096]]. *)
Definition BUFSIZE : nat := 4096.

Definition NUL : ascii := Ascii.zero.

Definition is_nul (c : ascii) : bool := Ascii.eqb c NUL.

(** ** [std::string] and character buffers *)

(** [s.c_str()] read over [s.size() + 1] bytes: the characters of [s]
    followed by the terminator that [c_str] guarantees. *)
Definition c_str (s : string) : string := s +:+ String NUL EmptyString.

Fixpoint zeros (n : nat) : string :=
  match n with
  | O => EmptyString
  | S k => String NUL (zeros k)
  end.

(** Length of the C string stored in a character array: the index of the
    first NUL.  [None] when the array holds no NUL at all; the C++ code
    would then read past the array, which is undefined. *)
Fixpoint strlen (buf : string) : option nat :=
  match buf with
  | EmptyString => None
  | String c rest => if is_nul c then Some O else S <$> strlen rest
  end.

(** [std::string(buf, 0, n)] where [buf] is a [char] array.  No constructor
    of [std::string] takes (pointer, position, count): the array is first
    converted to a string as a C string (up to its first NUL), and the
    substring constructor then keeps at most [n] characters from position 0. *)
Definition string_of_buf (buf : string) (n : nat) : option string :=
  k ← strlen buf; Some (substring 0 (Nat.min n k) buf).

(** The characters of [data] that precede its first NUL. *)
Fixpoint until_nul (data : string) : string :=
  match data with
  | EmptyString => EmptyString
  | String c rest => if is_nul c then EmptyString else String c (until_nul rest)
  end.

Fixpoint has_nul (data : string) : bool :=
  match data with
  | EmptyString => false
  | String c rest => is_nul c || has_nul rest
  end.

(** ** [recv] *)

(** Outcome of one [recv(s, buf, 4096, 0)] on a buffer that [ZeroMemory]
    has just cleared. *)
Inductive recv_result : Type :=
  | Received (data : string)   (* [data] was copied to the front of [buf] *)
  | Shutdown                   (* peer closed: returns 0 *)
  | RecvFailed.                (* returns SOCKET_ERROR *)

Definition bytesReceived (r : recv_result) : Z :=
  match r with
  | Received data => Z.of_nat (String.length data)
  | Shutdown => 0
  | RecvFailed => SOCKET_ERROR
  end.

(** Contents of [buf] after [ZeroMemory(buf, 4096)] and the [recv]. *)
Definition buf_after (r : recv_result) : string :=
  match r with
  | Received data => data +:+ zeros (BUFSIZE - String.length data)
  | _ => zeros BUFSIZE
  end.

(** [recv] never returns more than the 4096 bytes it was given room for. *)
Definition recv_fits (r : recv_result) : bool :=
  match r with
  | Received data => (String.length data <=? BUFSIZE)%nat
  | _ => true
  end.

(** ** Events *)

Inductive event : Type :=
  | EvLock                                          (* clients_mutex acquired *)
  | EvUnlock                                        (* clients_mutex released *)
  | EvSend (to : SOCKET) (bytes : string) (result : Z)   (* one [send] call *)
  | EvCout (line : string)
  | EvCerr (line : string)
  | EvClose (s : SOCKET).                           (* one [closesocket] call *)

(** ** The client program (lines 1-74) *)

Module Client.

(** One [send(clientSocket, text.c_str(), text.size() + 1, 0)]: the
    block of bytes handed to the transport. *)
Definition send_text (text : string) : string :=
  substring 0 (String.length text + 1) (c_str text).

(** Lines 50-54 and 61-68: the name is sent once, then every non-empty
    line typed by the user.  The result is the sequence of blocks
    written to the socket. *)
Definition main (clientName : string) (userInputs : list string)
    : list string :=
  send_text clientName ::
  flat_map (fun userInput =>
              if (0 <? String.length userInput)%nat
              then [send_text userInput]
              else [])
           userInputs.

(** Lines 9-18: the receiving thread.  Each [recv] that returns data
    prints [std::string(buf, 0, bytesReceived)] and a line end; any other
    result is ignored and the loop goes on.  [rs] is what the successive
    [recv]s return; the result is the lines printed, or [None] when a
    conversion reads past the buffer. *)
Fixpoint receiveMessages (rs : list recv_result) : option (list string) :=
  match rs with
  | [] => Some []
  | r :: rest =>
      if 0 <? bytesReceived r then
        line ← string_of_buf (buf_after r) (Z.to_nat (bytesReceived r));
        lines ← receiveMessages rest;
        Some (line :: lines)
      else receiveMessages rest
  end.

(** What the set-up of either program does besides talking to its peer. *)
Inductive setup_event : Type :=
  | SetupCerr (line : string)
  | SetupCout (line : string)
  | SetupClose (s : SOCKET)       (* closesocket *)
  | SetupCleanup.                 (* WSACleanup *)

(** How the set-up ends: [main] returns a code, or goes on with a socket. *)
Inductive setup_result : Type :=
  | Exit (code : Z)
  | Proceed (s : SOCKET).

(** Lines 21-48.  [wsa], [sock] and [conn] are what [WSAStartup],
    [socket] and [connect] return when they are called. *)
Definition startup (wsa : Z) (sock : SOCKET) (conn : Z)
    : setup_result * list setup_event :=
  if negb (wsa =? 0) then
    (Exit 1, [SetupCerr "Failed to initialize Winsock. Error: "])
  else if sock =? INVALID_SOCKET then
    (Exit 1, [SetupCerr "Socket creation failed. Error: "; SetupCleanup])
  else if conn =? SOCKET_ERROR then
    (Exit 1, [SetupCerr "Connection to server failed. Error: ";
              SetupClose sock; SetupCleanup])
  else (Proceed sock, []).

End Client.

(** ** The server program (lines 368-536) *)

Module Server.

(** *** Process state *)

(** The globals of lines 379-381, and the handles the process has
    closed. [clients_mutex] is [true] while a [lock_guard] holds it. *)
Record World : Type := mkWorld {
  clients : list SOCKET;
  clientNames : gmap SOCKET string;
  clients_mutex : bool;
  closed : gset SOCKET;
}.

Definition set_clients (cs : list SOCKET) (w : World) : World :=
  mkWorld cs (clientNames w) (clients_mutex w) (closed w).
Definition set_clientNames (m : gmap SOCKET string) (w : World) : World :=
  mkWorld (clients w) m (clients_mutex w) (closed w).
Definition set_mutex (b : bool) (w : World) : World :=
  mkWorld (clients w) (clientNames w) b (closed w).
Definition set_closed (c : gset SOCKET) (w : World) : World :=
  mkWorld (clients w) (clientNames w) (clients_mutex w) c.

(** What [send] returns on a handle that is still open: decided by the
    network, [SOCKET_ERROR] or a byte count. *)
Definition Net : Type := SOCKET -> string -> Z.

(** *** Computations *)

(** A piece of server code run by one thread: from a process state,
    either a result, the new state and the events it produced in order,
    or [None] when it has no outcome (it locks a mutex its own thread
    holds, or reads a buffer past its end). *)
Definition M (A : Type) : Type := World -> option (A * World * list event).

#[export] Instance M_ret : MRet M := fun A a w => Some (a, w, []).

#[export] Instance M_bind : MBind M := fun A B k m w =>
  match m w with
  | None => None
  | Some (a, w1, t1) =>
      match k a w1 with
      | None => None
      | Some (b, w2, t2) => Some (b, w2, t1 ++ t2)
      end
  end.

Definition emit (e : event) : M unit := fun w => Some (tt, w, [e]).
Definition cout (line : string) : M unit := emit (EvCout line).
Definition cerr (line : string) : M unit := emit (EvCerr line).

(** A value that exists only when the C++ expression is defined. *)
Definition defined {A : Type} (o : option A) : M A :=
  fun w => match o with Some a => Some (a, w, []) | None => None end.

Definition lock : M unit := fun w =>
  if clients_mutex w then None
  else Some (tt, set_mutex true w, [EvLock]).

Definition unlock : M unit := fun w =>
  Some (tt, set_mutex false w, [EvUnlock]).

(** [std::lock_guard<std::mutex> guard(clients_mutex);] followed by
    [body] up to the end of the enclosing block. *)
Definition lock_guard {A : Type} (body : M A) : M A :=
  lock ;; a ← body; unlock ;; mret a.

(** [send(s, buf, len, 0)]: fails on a handle the process has closed. *)
Definition send (net : Net) (s : SOCKET) (buf : string) (len : nat) : M Z :=
  fun w =>
    let bytes := substring 0 len buf in
    let result := if decide (s ∈ closed w) then SOCKET_ERROR
                  else net s bytes in
    Some (result, w, [EvSend s bytes result]).

Definition closesocket (s : SOCKET) : M unit := fun w =>
  Some (tt, set_closed ({[s]} ∪ closed w) w, [EvClose s]).

Definition read_clients : M (list SOCKET) := fun w => Some (clients w, w, []).
Definition write_clients (cs : list SOCKET) : M unit :=
  fun w => Some (tt, set_clients cs w, []).
Definition read_clientNames : M (gmap SOCKET string) :=
  fun w => Some (clientNames w, w, []).
Definition write_clientNames (m : gmap SOCKET string) : M unit :=
  fun w => Some (tt, set_clientNames m w, []).

(** A range-based [for] over a vector that the body does not resize. *)
Fixpoint for_each {A : Type} (xs : list A) (body : A -> M unit) : M unit :=
  match xs with
  | [] => mret tt
  | x :: rest => body x ;; for_each rest body
  end.

(** *** [broadcastMessage] (lines 383-394) *)

Definition send_failed_line : string :=
  "Failed to send message to a client. Error: ".

Definition broadcastMessage (net : Net) (message : string) (sender : SOCKET)
    : M unit :=
  lock_guard (
    cs ← read_clients;
    for_each cs (fun client =>
      if bool_decide (client ≠ sender) then
        result ← send net client (c_str message) (String.length message + 1);
        if bool_decide (result = SOCKET_ERROR)
        then cerr send_failed_line
        else mret tt
      else mret tt)).

(** *** [handleClient] (lines 396-469) *)

(** Where a handler thread stands.  A thread can be pre-empted between
    any two of its critical sections and blocking calls, so each of
    those is a point of its own; the local variable [clientName] is
    carried from the point where it is assigned. *)
Inductive phase : Type :=
  | Connecting                                (* 403: in the first recv *)
  | Named (clientName : string)               (* 408: about to store it *)
  | Joining (clientName : string)             (* 413: about to announce *)
  | Active (clientName : string)              (* 427: in the loop's recv *)
  | Relaying (clientName payload : string)    (* 455: about to relay *)
  | Leaving (clientName : string)             (* 430: about to deregister *)
  | Announcing (clientName : string)          (* 447: about to announce *)
  | Closing (clientName : string)             (* 450: about to close *)
  | Refused                                   (* returned at 421 *)
  | Finished (clientName : string).           (* returned at 469 *)

Definition name_failed_line : string :=
  "Error receiving client name. Closing connection.".
Definition not_found_line : string :=
  "Client socket not found in map, possibly already removed.".

Definition joinMessage (clientName : string) : string :=
  clientName +:+ " has joined the chat.".
Definition leaveMessage (clientName : string) : string :=
  clientName +:+ " has left the chat.".
Definition chatMessage (clientName payload : string) : string :=
  clientName +:+ ": " +:+ payload.

(** Lines 430-444: the block that deregisters a disconnected client.
    Its value is [clientName] as the block leaves it. *)
Definition deregister (clientSocket : SOCKET) (clientName : string)
    : M string :=
  lock_guard (
    names ← read_clientNames;
    match names !! clientSocket with
    | Some found =>
        cout ("Client '" +:+ found +:+ "' disconnected.") ;;
        cs ← read_clients;
        write_clients (filter (fun c => c ≠ clientSocket) cs) ;;
        write_clientNames (delete clientSocket names) ;;
        mret found
    | None =>
        cerr not_found_line ;;
        mret clientName
    end).

(** One stretch of [handleClient], from the point [at_] to the next.
    [r] is what the pending [recv] returns; it is read only at the two
    points that wait in [recv].  A thread that has returned has no
    further stretch. *)
Definition handleClient (net : Net) (clientSocket : SOCKET)
    (at_ : phase) (r : recv_result) : M phase :=
  match at_ with
  | Connecting =>
      if 0 <? bytesReceived r then
        clientName ← defined (string_of_buf (buf_after r)
                                            (Z.to_nat (bytesReceived r)));
        mret (Named clientName)
      else
        cerr name_failed_line ;;
        closesocket clientSocket ;;
        mret Refused
  | Named clientName =>
      lock_guard (
        names ← read_clientNames;
        write_clientNames (<[clientSocket := clientName]> names)) ;;
      mret (Joining clientName)
  | Joining clientName =>
      cout ("Client '" +:+ clientName +:+ "' connected.") ;;
      broadcastMessage net (joinMessage clientName) clientSocket ;;
      mret (Active clientName)
  | Active clientName =>
      if (bytesReceived r =? SOCKET_ERROR) || (bytesReceived r =? 0) then
        mret (Leaving clientName)
      else
        payload ← defined (string_of_buf (buf_after r)
                                         (Z.to_nat (bytesReceived r)));
        mret (Relaying clientName payload)
  | Relaying clientName payload =>
      let message := chatMessage clientName payload in
      cout ("Received: " +:+ message) ;;
      broadcastMessage net message clientSocket ;;
      mret (Active clientName)
  | Leaving clientName =>
      clientName' ← deregister clientSocket clientName;
      mret (Announcing clientName')
  | Announcing clientName =>
      broadcastMessage net (leaveMessage clientName) clientSocket ;;
      mret (Closing clientName)
  | Closing clientName =>
      closesocket clientSocket ;;      (* line 450, then break *)
      closesocket clientSocket ;;      (* line 468 *)
      mret (Finished clientName)
  | Refused | Finished _ => fun _ => None
  end.

(** *** [main] (lines 510-530) *)

Definition accept_failed_line : string := "Accept failed. Error: ".

(** One turn of the accept loop, for the handle [accept] returned.
    The value tells whether a handler thread is started for it. *)
Definition main (clientSocket : SOCKET) : M bool :=
  if bool_decide (clientSocket = INVALID_SOCKET) then
    cerr accept_failed_line ;;
    mret false
  else
    lock_guard (
      cs ← read_clients;
      write_clients (cs ++ [clientSocket])) ;;
    mret true.

(** *** The running server *)

(** The threads of the process: the one that runs [main], and one handler
    per accepted connection, named by the handle it was started with. *)
Inductive thread : Type :=
  | Listener
  | Handler (clientSocket : SOCKET).

#[export] Instance thread_eq_dec : EqDecision thread.
Proof. solve_decision. Defined.

(** The process state, where every handler thread stands (a thread that
    has returned keeps its entry), and what each thread has done so far. *)
Record System : Type := mkSystem {
  world : World;
  handlers : gmap SOCKET phase;
  history : list (thread * event);
}.

Definition initial : System :=
  mkSystem (mkWorld [] ∅ false ∅) ∅ [].

(** What the scheduler and the network choose next: [accept] returns a
    handle, or the handler of a connection runs its next stretch, with
    the answers of the network to its [send]s and to its pending [recv]. *)
Inductive action : Type :=
  | Accept (clientSocket : SOCKET)
  | Handle (net : Net) (clientSocket : SOCKET) (r : recv_result).

Definition by_thread (th : thread) (t : list event) : list (thread * event) :=
  map (pair th) t.

(** One atomic step.  A stretch of code touches [clients] and
    [clientNames] only while it holds [clients_mutex], so no other thread
    can observe or disturb these collections in the middle of a stretch,
    and running the stretch in one piece loses none of their states.

    Assumption of this step function: [accept] returns every handle
    number at most once.  An operating system may give the number of a
    closed socket to a later connection; the runs in which it does are
    not among those of [perform], and what is proved of [reachable]
    states is proved of the runs without such reuse.  What must hold
    whatever numbers [accept] returns is stated on [broadcastMessage],
    [handleClient] and [main] themselves, for every process state (see
    [accept_returns] and [undisturbed] below). *)
Definition perform (a : action) (σ : System) : option System :=
  match a with
  | Accept clientSocket =>
      match handlers σ !! clientSocket with
      | Some _ => None
      | None =>
          match main clientSocket (world σ) with
          | Some (started, w', t) =>
              Some (mkSystem w'
                      (if started : bool
                       then <[clientSocket := Connecting]> (handlers σ)
                       else handlers σ)
                      (history σ ++ by_thread Listener t))
          | None => None
          end
      end
  | Handle net clientSocket r =>
      match handlers σ !! clientSocket with
      | Some at_ =>
          if recv_fits r then
            match handleClient net clientSocket at_ r (world σ) with
            | Some (next, w', t) =>
                Some (mkSystem w'
                        (<[clientSocket := next]> (handlers σ))
                        (history σ ++ by_thread (Handler clientSocket) t))
            | None => None
            end
          else None
      | None => None
      end
  end.

Fixpoint run (acts : list action) (σ : System) : option System :=
  match acts with
  | [] => Some σ
  | a :: rest =>
      match perform a σ with
      | Some σ' => run rest σ'
      | None => None
      end
  end.

Definition reachable (σ : System) : Prop :=
  exists acts, run acts initial = Some σ.

(** *** Vocabulary of the properties *)

(** The name a handler has in [clientNames]: from the store of line 410
    to the removal block of lines 430-444. *)
Definition registered (at_ : phase) : option string :=
  match at_ with
  | Joining n | Active n | Relaying n _ | Leaving n => Some n
  | _ => None
  end.

(** The value of the local variable [clientName] once it is assigned. *)
Definition captured (at_ : phase) : option string :=
  match at_ with
  | Connecting | Refused => None
  | Named n | Joining n | Active n | Relaying n _ | Leaving n
  | Announcing n | Closing n | Finished n => Some n
  end.


(** The handler has not run the removal block. *)
Definition listed (at_ : phase) : bool :=
  match at_ with
  | Announcing _ | Closing _ | Finished _ => false
  | _ => true
  end.

(** The events of one thread, in order. *)
Definition events_of (th : thread) (h : list (thread * event)) : list event :=
  map snd (filter (fun x => fst x = th) h).

(** The handles written to, in order. *)
Fixpoint send_targets (t : list event) : list SOCKET :=
  match t with
  | [] => []
  | EvSend to _ _ :: rest => to :: send_targets rest
  | _ :: rest => send_targets rest
  end.

(** Every [send] of [t] happens while the mutex is in state [want],
    [held] being its state where [t] starts. *)
Fixpoint sends_when (want held : bool) (t : list event) : bool :=
  match t with
  | [] => true
  | EvLock :: rest => sends_when want true rest
  | EvUnlock :: rest => sends_when want false rest
  | EvSend _ _ _ :: rest => eqb held want && sends_when want held rest
  | _ :: rest => sends_when want held rest
  end.

(** Every failed [send] of [t] is followed at once by the error line, and
    no other [send] is. *)
Fixpoint failures_logged (t : list event) : bool :=
  match t with
  | [] => true
  | EvSend _ _ result :: rest =>
      if bool_decide (result = SOCKET_ERROR) then
        match rest with
        | EvCerr line :: rest' =>
            bool_decide (line = send_failed_line) && failures_logged rest'
        | _ => false
        end
      else
        match rest with
        | EvCerr _ :: _ => false
        | _ => failures_logged rest
        end
  | _ :: rest => failures_logged rest
  end.

(** What one delivery of [broadcastMessage] leaves in the trace, [shut]
    being the handles closed so far. *)
Definition delivery (net : Net) (shut : gset SOCKET) (message : string)
    (client : SOCKET) : list event :=
  let result := if decide (client ∈ shut) then SOCKET_ERROR
                else net client (c_str message) in
  EvSend client (c_str message) result ::
  (if bool_decide (result = SOCKET_ERROR) then [EvCerr send_failed_line] else []).

Definition deliveries (net : Net) (shut : gset SOCKET) (message : string)
    (sender : SOCKET) (cs : list SOCKET) : list event :=
  flat_map (delivery net shut message) (filter (fun c => c ≠ sender) cs).

(** The three texts of a broadcast by the client called [clientName]. *)
Definition broadcast_line (clientName text : string) : Prop :=
  text = joinMessage clientName \/
  text = leaveMessage clientName \/
  exists payload, text = chatMessage clientName payload.

(** The state of the mutex after the events [t], [held] being its state
    where [t] starts. *)
Fixpoint held_after (held : bool) (t : list event) : bool :=
  match t with
  | [] => held
  | EvLock :: rest => held_after true rest
  | EvUnlock :: rest => held_after false rest
  | _ :: rest => held_after held rest
  end.

(** Every [send] in the history was made by a handler thread, to a handle
    other than its own, with one of the three texts built from the name
    that thread captured, followed by the terminator. *)
Definition sound_sends (σ : System) : Prop :=
  forall th to bytes result,
    (th, EvSend to bytes result) ∈ history σ ->
    exists sender clientName text,
      th = Handler sender /\ to ≠ sender /\
      handlers σ !! sender ≫= captured = Some clientName /\
      broadcast_line clientName text /\ bytes = c_str text.

(** A handler that has not got past the handshake has produced no event;
    one that was refused has only reported the failure and closed. *)
Definition quiet (σ : System) : Prop :=
  forall s,
    match handlers σ !! s with
    | None | Some Connecting | Some (Named _) =>
        events_of (Handler s) (history σ) = []
    | Some Refused =>
        events_of (Handler s) (history σ)
        = [EvCerr name_failed_line; EvClose s]
    | _ => True
    end.

(** The history brackets its critical sections, and every [send] in it
    falls inside one. *)
Definition sends_locked (σ : System) : Prop :=
  held_after false (map snd (history σ)) = false /\
  sends_when true false (map snd (history σ)) = true.

(** What holds of the server between any two steps. *)
Record consistent (σ : System) : Prop := mkConsistent {
  mutex_free : clients_mutex (world σ) = false;
  names_agree : forall s,
    clientNames (world σ) !! s = handlers σ !! s ≫= registered;
  listed_agree : forall s,
    s ∈ clients (world σ) <->
    exists at_, handlers σ !! s = Some at_ /\ listed at_ = true;
  refused_closed : forall s,
    handlers σ !! s = Some Refused -> s ∈ closed (world σ);
  sends_sound : sound_sends σ;
  own_events : quiet σ;
  locked_sends : sends_locked σ;
}.

(** *** The registry invariant as the specification words it *)



(** *** Set-up of the server (lines 471-508) *)

(** [wsa], [sock], [bound] and [listening] are what [WSAStartup],
    [socket], [bind] and [listen] return when they are called. *)
Definition startup (wsa : Z) (sock : SOCKET) (bound listening : Z)
    : Client.setup_result * list Client.setup_event :=
  if negb (wsa =? 0) then
    (Client.Exit 1, [Client.SetupCerr "Failed to initialize Winsock."])
  else if sock =? INVALID_SOCKET then
    (Client.Exit 1, [Client.SetupCerr "Socket creation failed. Error: ";
                     Client.SetupCleanup])
  else if bound =? SOCKET_ERROR then
    (Client.Exit 1, [Client.SetupCerr "Bind failed. Error: ";
                     Client.SetupClose sock; Client.SetupCleanup])
  else if listening =? SOCKET_ERROR then
    (Client.Exit 1, [Client.SetupCerr "Listen failed. Error: ";
                     Client.SetupClose sock; Client.SetupCleanup])
  else
    (Client.Proceed sock,
     [Client.SetupCout "Server is listening on port 54000..."]).

(** *** Vocabulary of the further properties *)

(** The handler thread has returned. *)
Definition returned (at_ : phase) : bool :=
  match at_ with
  | Refused | Finished _ => true
  | _ => false
  end.

(** The number of [send]s to the handle [k]. *)
Fixpoint count_sends_to (k : SOCKET) (t : list event) : nat :=
  match t with
  | [] => O
  | EvSend to _ _ :: rest =>
      ((if bool_decide (to = k) then 1 else 0) + count_sends_to k rest)%nat
  | _ :: rest => count_sends_to k rest
  end.

(** A string that came out of a receive buffer: it holds no NUL and is
    shorter than the buffer. *)
Definition from_buffer (x : string) : Prop :=
  has_nul x = false /\ (String.length x < BUFSIZE)%nat.

(** The strings a handler carries came out of a receive buffer. *)
Definition clean (at_ : phase) : Prop :=
  match at_ with
  | Connecting | Refused => True
  | Relaying n payload => from_buffer n /\ from_buffer payload
  | Named n | Joining n | Active n | Leaving n
  | Announcing n | Closing n | Finished n => from_buffer n
  end.

(** A block on the wire: a text without NUL, of at most two buffers,
    and its terminator. *)
Definition framed (bytes : string) : Prop :=
  exists text,
    bytes = c_str text /\ has_nul text = false /\
    (String.length text <= 2 * BUFSIZE)%nat.

(** What the receiving thread of the client prints for one [recv]. *)
Definition printed (r : recv_result) : option string :=
  match r with
  | Received data =>
      if (0 <? String.length data)%nat then Some (until_nul data) else None
  | _ => None
  end.

(** The conversion of the buffer after this [recv] stays inside it. *)
Definition convertible (r : recv_result) : bool :=
  match r with
  | Received data => (String.length data <? BUFSIZE)%nat || has_nul data
  | _ => true
  end.

(** What else holds of the server between any two steps. *)
Record orderly (σ : System) : Prop := mkOrderly {
  no_duplicates : NoDup (clients (world σ));
  closed_agree : forall k,
    k ∈ closed (world σ) <->
    exists at_, handlers σ !! k = Some at_ /\ returned at_ = true;
  clean_handlers : forall k at_, handlers σ !! k = Some at_ -> clean at_;
  framed_sends : forall th to bytes result,
    (th, EvSend to bytes result) ∈ history σ -> framed bytes;
  valid_handles : handlers σ !! INVALID_SOCKET = None;
}.

(** *** Concrete scenarios *)

(** A network on which every [send] to an open handle succeeds in full. *)
Definition all_delivered : Net :=
  fun _ bytes => Z.of_nat (String.length bytes).

(** A network on which every [send] to handle 2 fails. *)
Definition two_unreachable : Net :=
  fun s bytes => if decide (s = 2) then SOCKET_ERROR
                 else Z.of_nat (String.length bytes).

(** Three listed connections, the first two named, the mutex free. *)
Definition three_listed : World :=
  mkWorld [1; 2; 3] {[1 := "Al"%string; 2 := "Bo"%string]} false ∅.

(** The state a run of the server ends in ([initial] if it cannot run). *)
Definition state_after (acts : list action) : System :=
  default initial (run acts initial).

(** The handler of [clientSocket] runs a stretch that does not start in
    [recv]: no [recv] result is read, whatever is supplied. *)
Definition resume (net : Net) (clientSocket : SOCKET) : action :=
  Handle net clientSocket RecvFailed.

(** Connection 1 is accepted, and nothing else has happened yet. *)
Definition one_accepted : list action := [Accept 1].

(** Connection 1 is accepted and its first read reports that the peer
    has closed; connection 2 then joins as "Bo". *)
Definition refused_then_join : list action :=
  [Accept 1; Handle all_delivered 1 Shutdown;
   Accept 2; Handle all_delivered 2 (Received (c_str "Bo"));
   resume all_delivered 2; resume all_delivered 2].

(** Connections 1 and 2 are accepted; 1 joins as "Al", says "hi", and
    its connection ends. *)
Definition al_says_hi : list action :=
  [Accept 1; Accept 2;
   Handle all_delivered 1 (Received (c_str "Al"));
   resume all_delivered 1;
   resume all_delivered 1;
   Handle all_delivered 1 (Received (c_str "hi"));
   resume all_delivered 1;
   Handle all_delivered 1 Shutdown;
   resume all_delivered 1;
   resume all_delivered 1;
   resume all_delivered 1].

(** *** The life of a connection *)

(** The stretches of a handler as the protocol describes them: from a
    point of the handler and what its pending [recv] returns, the next
    point and the text broadcast on the way, if any.  The name is the
    first data read, a chat payload is a later data read (each up to its
    first NUL), the join notice follows the store of the name, and the
    leave notice follows the removal that a read of 0 or an error
    starts. *)
Inductive lifecycle : phase -> recv_result -> phase -> option string -> Prop :=
  | life_named data :
      (0 < String.length data)%nat ->
      lifecycle Connecting (Received data) (Named (until_nul data)) None
  | life_refused r :
      bytesReceived r <= 0 ->
      lifecycle Connecting r Refused None
  | life_stored r n :
      lifecycle (Named n) r (Joining n) None
  | life_joined r n :
      lifecycle (Joining n) r (Active n)
                (Some (n +:+ " has joined the chat."))
  | life_read n data :
      (0 < String.length data)%nat ->
      lifecycle (Active n) (Received data)
                (Relaying n (until_nul data)) None
  | life_ended r n :
      bytesReceived r = 0 \/ bytesReceived r = SOCKET_ERROR ->
      lifecycle (Active n) r (Leaving n) None
  | life_relayed r n payload :
      lifecycle (Relaying n payload) r (Active n)
                (Some (n +:+ ": " +:+ payload))
  | life_removed r n :
      lifecycle (Leaving n) r (Announcing n) None
  | life_left r n :
      lifecycle (Announcing n) r (Closing n)
                (Some (n +:+ " has left the chat."))
  | life_closed r n :
      lifecycle (Closing n) r (Finished n) None.

(** *** Handle numbers that come back *)

(** [accept] returns [clientSocket] and [main] runs its turn for it.
    Whatever was closed under that number before, the number names an
    open socket from now on. *)
Definition accept_returns (clientSocket : SOCKET) : M bool :=
  fun w => main clientSocket
                (set_closed (closed w ∖ {[clientSocket]}) w).

(** From one process state to a later one by any stretches of any
    handler threads and any turns of [main], in any order, except two
    things: [accept] does not return the number [s] again, and no thread
    started with the number [s] runs the removal block. *)
Inductive undisturbed (s : SOCKET) : World -> World -> Prop :=
  | undisturbed_here w : undisturbed s w w
  | undisturbed_accept k w b w' t w'' :
      k ≠ s ->
      accept_returns k w = Some (b, w', t) ->
      undisturbed s w' w'' ->
      undisturbed s w w''
  | undisturbed_stretch net k at_ r w next w' t w'' :
      (k = s -> forall n, at_ ≠ Leaving n) ->
      handleClient net k at_ r w = Some (next, w', t) ->
      undisturbed s w' w'' ->
      undisturbed s w w''.

(** Connection 1 fails its handshake; [accept] then gives the number 1
    to a new connection, and connection 2 joins as "Bo". *)
Definition number_comes_back : M phase :=
  accept_returns 1 ;;
  handleClient all_delivered 1 Connecting Shutdown ;;
  accept_returns 1 ;;
  accept_returns 2 ;;
  handleClient all_delivered 2 Connecting (Received (c_str "Bo")) ;;
  handleClient all_delivered 2 (Named "Bo") RecvFailed ;;
  handleClient all_delivered 2 (Joining "Bo") RecvFailed.

(** After that, the new connection 1 joins as "Al" and its connection
    ends. *)
Definition number_comes_back_and_leaves : M phase :=
  number_comes_back ;;
  handleClient all_delivered 1 Connecting (Received (c_str "Al")) ;;
  handleClient all_delivered 1 (Named "Al") RecvFailed ;;
  handleClient all_delivered 1 (Joining "Al") RecvFailed ;;
  handleClient all_delivered 1 (Active "Al") Shutdown ;;
  handleClient all_delivered 1 (Leaving "Al") RecvFailed.

End Server.

(** * Properties *)

(** *** Facts about strings and buffers *)

Section Strings.

Lemma app_cons (c : ascii) (s t : string) :
  String c s +:+ t = String c (s +:+ t).
Proof. reflexivity. Qed.

Lemma app_empty (s : string) : s +:+ EmptyString = s.
Proof.
  induction s as [|c s IH]; [reflexivity |].
  now rewrite app_cons, IH.
Qed.

Lemma length_app (s t : string) :
  String.length (s +:+ t) = (String.length s + String.length t)%nat.
Proof. induction s as [|c s IH]; simpl; [reflexivity | now rewrite IH]. Qed.

Lemma substring_prefix (s t : string) :
  substring 0 (String.length s) (s +:+ t) = s.
Proof.
  induction s as [|c s IH]; simpl.
  - destruct t; reflexivity.
  - now rewrite IH.
Qed.

Lemma c_str_length (s : string) :
  String.length (c_str s) = (String.length s + 1)%nat.
Proof. unfold c_str. now rewrite length_app. Qed.

(** Reading [size() + 1] bytes from [c_str()] yields the text and its
    terminator, whatever the text contains. *)
Lemma c_str_read (s : string) :
  substring 0 (String.length s + 1) (c_str s) = c_str s.
Proof.
  rewrite <- c_str_length.
  rewrite <- (substring_prefix (c_str s) EmptyString) at 2.
  f_equal. induction (c_str s) as [|c u IH]; simpl; [reflexivity | now rewrite IH].
Qed.

Lemma until_nul_length (data : string) :
  (String.length (until_nul data) <= String.length data)%nat.
Proof.
  induction data as [|c data IH]; simpl; [lia |].
  destruct (is_nul c); simpl; lia.
Qed.

Lemma until_nul_prefix (data rest : string) :
  substring 0 (String.length (until_nul data)) (data +:+ rest) = until_nul data.
Proof.
  induction data as [|c data IH]; simpl.
  - destruct rest; reflexivity.
  - destruct (is_nul c); simpl; [reflexivity | now rewrite IH].
Qed.

Lemma strlen_has_nul (data rest : string) :
  has_nul data = true ->
  strlen (data +:+ rest) = Some (String.length (until_nul data)).
Proof.
  induction data as [|c data IH]; simpl; [discriminate |].
  destruct (is_nul c); simpl; [reflexivity |].
  intros H. now rewrite IH.
Qed.

Lemma strlen_padded (data : string) (k : nat) :
  (0 < k)%nat ->
  strlen (data +:+ zeros k) = Some (String.length (until_nul data)).
Proof.
  intros Hk. induction data as [|c data IH]; simpl.
  - destruct k; [lia | reflexivity].
  - destruct (is_nul c); simpl; [reflexivity | now rewrite IH].
Qed.

Lemma strlen_no_nul (data : string) :
  has_nul data = false -> strlen data = None.
Proof.
  induction data as [|c data IH]; simpl; [reflexivity |].
  destruct (is_nul c); simpl; [discriminate |].
  intros H. now rewrite IH.
Qed.

End Strings.

(** What [std::string(buf, 0, bytesReceived)] holds after a [recv] of
    [data]: the bytes of [data] before its first NUL.  The expression is
    defined as soon as the buffer holds a NUL, which it does unless all
    4096 bytes were overwritten by non-NUL bytes. *)
Lemma string_of_recv (data : string) :
  (String.length data < BUFSIZE)%nat \/ has_nul data = true ->
  string_of_buf (buf_after (Received data))
                (Z.to_nat (bytesReceived (Received data)))
  = Some (until_nul data).
Proof.
  intros H. unfold string_of_buf, buf_after, bytesReceived.
  rewrite Nat2Z.id.
  assert (strlen (data +:+ zeros (BUFSIZE - String.length data))
          = Some (String.length (until_nul data))) as ->.
  { destruct H as [H | H].
    - apply strlen_padded. lia.
    - now apply strlen_has_nul. }
  simpl. rewrite Nat.min_r by apply until_nul_length.
  now rewrite until_nul_prefix.
Qed.

Lemma string_of_recv_undefined (data : string) :
  String.length data = BUFSIZE -> has_nul data = false ->
  string_of_buf (buf_after (Received data))
                (Z.to_nat (bytesReceived (Received data)))
  = None.
Proof.
  intros Hlen Hnul. unfold string_of_buf, buf_after.
  rewrite Hlen, Nat.sub_diag. simpl zeros.
  now rewrite app_empty, strlen_no_nul.
Qed.


(** ** The code in closed form *)

Import Server.

Section ClosedForms.

Variable net : Net.

Lemma bind_run {A B : Type} (m : M A) (k : A -> M B) (w : World)
    (a : A) (w1 : World) (t1 : list event) :
  m w = Some (a, w1, t1) ->
  (m ≫= k) w = match k a w1 with
               | Some (b, w2, t2) => Some (b, w2, t1 ++ t2)
               | None => None
               end.
Proof. intros H. unfold mbind, M_bind. now rewrite H. Qed.

Lemma send_and_log (message : string) (client : SOCKET) (w : World) :
  (result ← send net client (c_str message) (String.length message + 1);
   if bool_decide (result = SOCKET_ERROR)
   then cerr send_failed_line
   else mret tt) w
  = Some (tt, w, delivery net (closed w) message client).
Proof.
  erewrite bind_run by (unfold send; rewrite c_str_read; reflexivity).
  unfold delivery. destruct (bool_decide _); reflexivity.
Qed.

Lemma for_each_deliver (message : string) (sender : SOCKET)
    (w : World) (cs : list SOCKET) :
  for_each cs (fun client =>
    if bool_decide (client ≠ sender) then
      result ← send net client (c_str message) (String.length message + 1);
      if bool_decide (result = SOCKET_ERROR)
      then cerr send_failed_line
      else mret tt
    else mret tt) w
  = Some (tt, w, deliveries net (closed w) message sender cs).
Proof.
  unfold deliveries.
  induction cs as [|c cs IH]; [reflexivity |].
  cbn [for_each]. rewrite filter_cons.
  destruct (decide (c ≠ sender)) as [Hc | Hc].
  - rewrite bool_decide_eq_true_2 by assumption.
    erewrite bind_run by apply send_and_log.
    now rewrite IH.
  - rewrite bool_decide_eq_false_2 by assumption.
    erewrite bind_run by reflexivity. now rewrite IH.
Qed.

(** [broadcastMessage] from a state where the mutex is free: it returns,
    leaves the process state as it was, and its trace is the lock, the
    deliveries to the listed handles other than [sender], the unlock. *)
Lemma broadcastMessage_eq (message : string) (sender : SOCKET) (w : World) :
  clients_mutex w = false ->
  broadcastMessage net message sender w
  = Some (tt, w, EvLock :: deliveries net (closed w) message sender (clients w)
                          ++ [EvUnlock]).
Proof.
  intros Hfree. unfold broadcastMessage, lock_guard.
  erewrite bind_run by (unfold lock; rewrite Hfree; reflexivity).
  erewrite bind_run.
  2:{ erewrite bind_run by reflexivity. rewrite for_each_deliver. reflexivity. }
  erewrite bind_run by reflexivity. cbn.
  replace (set_mutex false (set_mutex true w)) with w
    by (destruct w; simpl in *; now subst).
  reflexivity.
Qed.

(** The removal block of lines 430-444. *)
Lemma deregister_eq (clientSocket : SOCKET) (clientName : string) (w : World) :
  clients_mutex w = false ->
  deregister clientSocket clientName w
  = match clientNames w !! clientSocket with
    | Some found =>
        Some (found,
              mkWorld (filter (fun c => c ≠ clientSocket) (clients w))
                      (delete clientSocket (clientNames w)) false (closed w),
              [EvLock; EvCout ("Client '" +:+ found +:+ "' disconnected.");
               EvUnlock])
    | None => Some (clientName, w, [EvLock; EvCerr not_found_line; EvUnlock])
    end.
Proof.
  intros Hfree. unfold deregister, lock_guard.
  erewrite bind_run by (unfold lock; rewrite Hfree; reflexivity).
  destruct (clientNames w !! clientSocket) as [found|] eqn:Hfind.
  - erewrite bind_run.
    2:{ erewrite bind_run by reflexivity. cbn [clientNames set_mutex].
        rewrite Hfind. reflexivity. }
    reflexivity.
  - erewrite bind_run.
    2:{ erewrite bind_run by reflexivity. cbn [clientNames set_mutex].
        rewrite Hfind. reflexivity. }
    erewrite bind_run by reflexivity. cbn.
    replace (set_mutex false (set_mutex true w)) with w
      by (destruct w; simpl in *; now subst).
    reflexivity.
Qed.

(** Every stretch of [handleClient], from a state where the mutex is free. *)
Lemma handleClient_eq (clientSocket : SOCKET) (at_ : phase)
    (r : recv_result) (w : World) :
  clients_mutex w = false ->
  handleClient net clientSocket at_ r w
  = match at_ with
    | Connecting =>
        if 0 <? bytesReceived r then
          match string_of_buf (buf_after r) (Z.to_nat (bytesReceived r)) with
          | Some clientName => Some (Named clientName, w, [])
          | None => None
          end
        else
          Some (Refused, set_closed ({[clientSocket]} ∪ closed w) w,
                [EvCerr name_failed_line; EvClose clientSocket])
    | Named clientName =>
        Some (Joining clientName,
              set_clientNames (<[clientSocket := clientName]> (clientNames w)) w,
              [EvLock; EvUnlock])
    | Joining clientName =>
        Some (Active clientName, w,
              EvCout ("Client '" +:+ clientName +:+ "' connected.") ::
              EvLock :: deliveries net (closed w) (joinMessage clientName)
                                   clientSocket (clients w) ++ [EvUnlock])
    | Active clientName =>
        if (bytesReceived r =? SOCKET_ERROR) || (bytesReceived r =? 0) then
          Some (Leaving clientName, w, [])
        else
          match string_of_buf (buf_after r) (Z.to_nat (bytesReceived r)) with
          | Some payload => Some (Relaying clientName payload, w, [])
          | None => None
          end
    | Relaying clientName payload =>
        Some (Active clientName, w,
              EvCout ("Received: " +:+ chatMessage clientName payload) ::
              EvLock :: deliveries net (closed w)
                                   (chatMessage clientName payload)
                                   clientSocket (clients w) ++ [EvUnlock])
    | Leaving clientName =>
        match clientNames w !! clientSocket with
        | Some found =>
            Some (Announcing found,
                  mkWorld (filter (fun c => c ≠ clientSocket) (clients w))
                          (delete clientSocket (clientNames w)) false (closed w),
                  [EvLock; EvCout ("Client '" +:+ found +:+ "' disconnected.");
                   EvUnlock])
        | None =>
            Some (Announcing clientName, w,
                  [EvLock; EvCerr not_found_line; EvUnlock])
        end
    | Announcing clientName =>
        Some (Closing clientName, w,
              EvLock :: deliveries net (closed w) (leaveMessage clientName)
                                   clientSocket (clients w) ++ [EvUnlock])
    | Closing clientName =>
        Some (Finished clientName,
              set_closed ({[clientSocket]} ∪ ({[clientSocket]} ∪ closed w)) w,
              [EvClose clientSocket; EvClose clientSocket])
    | Refused | Finished _ => None
    end.
Proof.
  intros Hfree. destruct at_; cbn [handleClient].
  - destruct (0 <? bytesReceived r); [| reflexivity].
    destruct (string_of_buf _ _); reflexivity.
  - unfold lock_guard.
    erewrite bind_run.
    2:{ erewrite bind_run by (unfold lock; rewrite Hfree; reflexivity).
        reflexivity. }
    cbn. do 2 f_equal. f_equal. destruct w; simpl in *; now subst.
  - erewrite bind_run by reflexivity.
    erewrite bind_run by (apply broadcastMessage_eq, Hfree).
    cbn. now rewrite app_nil_r.
  - destruct (_ || _); [reflexivity |].
    destruct (string_of_buf _ _); reflexivity.
  - cbn zeta. erewrite bind_run by reflexivity.
    erewrite bind_run by (apply broadcastMessage_eq, Hfree).
    cbn. now rewrite app_nil_r.
  - unfold mbind, M_bind. rewrite deregister_eq by assumption.
    destruct (clientNames w !! clientSocket); reflexivity.
  - erewrite bind_run by (apply broadcastMessage_eq, Hfree).
    cbn. now rewrite app_nil_r.
  - reflexivity.
  - reflexivity.
  - reflexivity.
Qed.

(** One turn of the accept loop, from a state where the mutex is free. *)
Lemma main_eq (clientSocket : SOCKET) (w : World) :
  clients_mutex w = false ->
  main clientSocket w
  = if bool_decide (clientSocket = INVALID_SOCKET)
    then Some (false, w, [EvCerr accept_failed_line])
    else Some (true, set_clients (clients w ++ [clientSocket]) w,
               [EvLock; EvUnlock]).
Proof.
  intros Hfree. unfold main.
  destruct (bool_decide _); [reflexivity |].
  unfold lock_guard.
  erewrite bind_run.
  2:{ erewrite bind_run by (unfold lock; rewrite Hfree; reflexivity).
      reflexivity. }
  cbn. do 2 f_equal. f_equal. destruct w; simpl in *; now subst.
Qed.

End ClosedForms.

(** ** Invariants of the running server *)

(** Splits a step [perform a σ = Some σ'] taken with the mutex free into
    the cases of the code, each with [σ'] in closed form. *)
Ltac step_cases H Hfree :=
  match type of H with
  | perform ?a ?σ = Some ?σ' =>
      let s := fresh "s" in
      let net := fresh "net" in
      let r := fresh "r" in
      let Hh := fresh "Hh" in
      destruct a as [s | net s r]; unfold perform in H;
      [ destruct (handlers σ !! s) eqn:Hh; [discriminate |];
        rewrite (main_eq s _ Hfree) in H;
        destruct (decide (s = INVALID_SOCKET));
        [ rewrite bool_decide_eq_true_2 in H by assumption
        | rewrite bool_decide_eq_false_2 in H by assumption ];
        cbv beta iota in H; apply (inj Some) in H; subst σ'
      | let at_ := fresh "at_" in
        destruct (handlers σ !! s) as [at_|] eqn:Hh; [| discriminate];
        destruct (recv_fits r); [| discriminate];
        rewrite (handleClient_eq net s at_ r _ Hfree) in H;
        destruct at_;
        repeat match type of H with
          | context [if ?b then _ else _] => destruct b eqn:?
          | context [string_of_buf ?x ?y] =>
              destruct (string_of_buf x y) eqn:?
          | context [clientNames ?w !! ?k] =>
              destruct (clientNames w !! k) eqn:?
          end;
        try discriminate;
        cbv beta iota in H; apply (inj Some) in H; subst σ' ]
  end.

Section Invariants.

#[local] Set Warnings "-clear-no-such-hyp".

Lemma step_mutex_free (a : action) (σ σ' : System) :
  clients_mutex (world σ) = false ->
  perform a σ = Some σ' ->
  clients_mutex (world σ') = false.
Proof.
  intros Hfree H. step_cases H Hfree; simpl; assumption || reflexivity.
Qed.

Lemma step_names_agree (a : action) (σ σ' : System) :
  clients_mutex (world σ) = false ->
  (forall k, clientNames (world σ) !! k = handlers σ !! k ≫= registered) ->
  perform a σ = Some σ' ->
  forall k, clientNames (world σ') !! k = handlers σ' !! k ≫= registered.
Proof.
  intros Hfree Hnames H k.
  pose proof (Hnames k) as Hk.
  step_cases H Hfree; simpl;
    try assumption;
    pose proof (Hnames s) as Hs; rewrite Hh in Hs; simpl in Hs;
    (destruct (decide (k = s)) as [-> |];
     [ rewrite ?lookup_insert_eq, ?lookup_delete_eq; simpl; congruence
     | rewrite ?lookup_insert_ne, ?lookup_delete_ne by congruence;
       assumption ]).
Qed.

Lemma step_listed_agree (a : action) (σ σ' : System) :
  clients_mutex (world σ) = false ->
  (forall k, clientNames (world σ) !! k = handlers σ !! k ≫= registered) ->
  (forall k, k ∈ clients (world σ) <->
             exists at_, handlers σ !! k = Some at_ /\ listed at_ = true) ->
  perform a σ = Some σ' ->
  forall k, k ∈ clients (world σ') <->
            exists at_, handlers σ' !! k = Some at_ /\ listed at_ = true.
Proof.
  intros Hfree Hnames Hlisted H k.
  pose proof (Hlisted k) as Hk.
  step_cases H Hfree; simpl; try assumption;
    pose proof (Hlisted s) as Hs; pose proof (Hnames s) as Hn;
    rewrite Hh in Hs, Hn; simpl in Hn;
    rewrite ?elem_of_app, ?list_elem_of_filter, ?list_elem_of_singleton;
    (destruct (decide (k = s)) as [-> |];
     [ rewrite lookup_insert_eq | rewrite lookup_insert_ne by congruence ]);
    naive_solver.
Qed.

Lemma step_refused_closed (a : action) (σ σ' : System) :
  clients_mutex (world σ) = false ->
  (forall k, handlers σ !! k = Some Refused -> k ∈ closed (world σ)) ->
  perform a σ = Some σ' ->
  forall k, handlers σ' !! k = Some Refused -> k ∈ closed (world σ').
Proof.
  intros Hfree Hclosed H k.
  pose proof (Hclosed k) as Hk.
  step_cases H Hfree; simpl; try assumption;
    (destruct (decide (k = s)) as [-> |];
     [ rewrite lookup_insert_eq | rewrite lookup_insert_ne by congruence ]);
    try assumption; try discriminate; set_solver.
Qed.

Lemma elem_of_by_thread (th th' : thread) (e : event) (t : list event) :
  (th', e) ∈ by_thread th t <-> th' = th /\ e ∈ t.
Proof.
  unfold by_thread. rewrite list_elem_of_fmap. split.
  - intros (e' & [= -> ->] & Hin). auto.
  - intros [-> Hin]. eauto.
Qed.

Lemma elem_of_delivery (net : Net) (shut : gset SOCKET) (message : string)
    (client to : SOCKET) (bytes : string) (result : Z) :
  EvSend to bytes result ∈ delivery net shut message client ->
  to = client /\ bytes = c_str message.
Proof.
  unfold delivery. rewrite elem_of_cons. intros [[= -> -> _] | Hin]; [auto |].
  destruct (bool_decide _); [| now apply not_elem_of_nil in Hin].
  apply list_elem_of_singleton in Hin. discriminate.
Qed.

(** A [send] of a broadcast goes to a listed handle other than the
    sender's, and carries the text with its terminator. *)
Lemma elem_of_deliveries (net : Net) (shut : gset SOCKET) (message : string)
    (sender : SOCKET) (cs : list SOCKET) (to : SOCKET) (bytes : string)
    (result : Z) :
  EvSend to bytes result ∈ deliveries net shut message sender cs ->
  to ≠ sender /\ to ∈ cs /\ bytes = c_str message.
Proof.
  unfold deliveries. rewrite list_elem_of_In, in_flat_map.
  intros (c & Hc & Hin).
  apply list_elem_of_In, list_elem_of_filter in Hc as [Hne Hc].
  apply list_elem_of_In, elem_of_delivery in Hin as [-> ->]. auto.
Qed.

Lemma step_sends_sound (a : action) (σ σ' : System) :
  clients_mutex (world σ) = false ->
  (forall k, clientNames (world σ) !! k = handlers σ !! k ≫= registered) ->
  sound_sends σ ->
  perform a σ = Some σ' ->
  sound_sends σ'.
Proof.
  intros Hfree Hnames Hsound H th to bytes result Hin.
  step_cases H Hfree; cbn [history handlers world] in Hin |- *;
    apply elem_of_app in Hin as [Hold | Hnew].
  all: try (pose proof (Hnames s) as Hn; rewrite Hh in Hn; simpl in Hn).
  all: try match type of Hold with _ ∈ history _ =>
    destruct (Hsound _ _ _ _ Hold)
      as (sender & name & text & -> & Hne & Hcap & Hline & ->);
    exists sender, name, text; split_and!; try done;
    try (destruct (decide (sender = s)) as [-> |];
         [ rewrite lookup_insert_eq; rewrite Hh in Hcap; simpl in *;
           congruence
         | rewrite lookup_insert_ne by congruence; assumption ])
  end.
  all: apply elem_of_by_thread in Hnew as [-> Hnew].
  all: repeat (apply elem_of_cons in Hnew as [Hnew | Hnew];
               [discriminate |]).
  all: try (now apply not_elem_of_nil in Hnew).
  all: apply elem_of_app in Hnew as [Hnew | Hnew];
    [| apply list_elem_of_singleton in Hnew; discriminate].
  all: apply elem_of_deliveries in Hnew as (Hne & _ & ->).
  all: eexists s, _, _; rewrite lookup_insert_eq; simpl;
    split_and!; try done; unfold broadcast_line; eauto.
Qed.

Lemma events_of_extend (th th' : thread) (h : list (thread * event))
    (t : list event) :
  events_of th (h ++ by_thread th' t)
  = events_of th h ++ (if decide (th' = th) then t else []).
Proof.
  unfold events_of, by_thread. rewrite filter_app, map_app. f_equal.
  induction t as [|e t IH]; [now destruct (decide _) |].
  cbn [map]. rewrite filter_cons. cbn [fst].
  destruct (decide (th' = th)); cbn [map snd]; now rewrite IH.
Qed.

Lemma step_quiet (a : action) (σ σ' : System) :
  clients_mutex (world σ) = false ->
  quiet σ ->
  perform a σ = Some σ' ->
  quiet σ'.
Proof.
  intros Hfree Hown H k.
  pose proof (Hown k) as Hk.
  step_cases H Hfree; cbn [history handlers world];
    rewrite events_of_extend;
    pose proof (Hown s) as Hs; rewrite Hh in Hs.
  all: destruct (decide (k = s)) as [-> |];
    rewrite ?lookup_insert_eq; rewrite ?lookup_insert_ne by congruence;
    try (rewrite decide_True by reflexivity);
    try (rewrite decide_False by congruence);
    rewrite ?app_nil_r.
  all: try assumption.
  all: try exact I.
  all: try now rewrite Hs.
  all: now rewrite Hh.
Qed.

Lemma snd_by_thread (th : thread) (t : list event) :
  map snd (by_thread th t) = t.
Proof.
  unfold by_thread. rewrite map_map. cbn [snd]. apply map_id.
Qed.

Lemma held_after_app (held : bool) (t1 t2 : list event) :
  held_after held (t1 ++ t2) = held_after (held_after held t1) t2.
Proof.
  revert held. induction t1 as [|e t1 IH]; intros held; [reflexivity |].
  destruct e; cbn [app held_after]; apply IH.
Qed.

Lemma sends_when_app (want held : bool) (t1 t2 : list event) :
  sends_when want held (t1 ++ t2)
  = sends_when want held t1 && sends_when want (held_after held t1) t2.
Proof.
  revert held. induction t1 as [|e t1 IH]; intros held; [reflexivity |].
  destruct e; cbn [app held_after sends_when]; rewrite IH;
    try reflexivity.
  now rewrite andb_assoc.
Qed.

Lemma held_after_delivery (net : Net) (shut : gset SOCKET)
    (message : string) (client : SOCKET) (held : bool) :
  held_after held (delivery net shut message client) = held.
Proof. unfold delivery. now destruct (bool_decide _). Qed.

(** The deliveries of a broadcast neither lock nor unlock. *)
Lemma held_after_deliveries (net : Net) (shut : gset SOCKET)
    (message : string) (sender : SOCKET) (cs : list SOCKET) (held : bool) :
  held_after held (deliveries net shut message sender cs) = held.
Proof.
  unfold deliveries.
  induction (filter (fun c => c ≠ sender) cs) as [|c l IH]; [reflexivity |].
  cbn [flat_map]. now rewrite held_after_app, held_after_delivery.
Qed.

Lemma sends_when_deliveries (net : Net) (shut : gset SOCKET)
    (message : string) (sender : SOCKET) (cs : list SOCKET) (held : bool) :
  sends_when held held (deliveries net shut message sender cs) = true.
Proof.
  unfold deliveries.
  induction (filter (fun c => c ≠ sender) cs) as [|c l IH]; [reflexivity |].
  cbn [flat_map]. rewrite sends_when_app, held_after_delivery, IH, andb_true_r.
  unfold delivery. destruct (bool_decide _); cbn; now destruct held.
Qed.

Lemma step_sends_locked (a : action) (σ σ' : System) :
  clients_mutex (world σ) = false ->
  sends_locked σ ->
  perform a σ = Some σ' ->
  sends_locked σ'.
Proof.
  intros Hfree [Hheld Hsends] H. unfold sends_locked.
  step_cases H Hfree; cbn [history handlers world];
    rewrite map_app, snd_by_thread, held_after_app, sends_when_app,
            Hheld, Hsends;
    cbn [held_after sends_when andb];
    rewrite ?held_after_app, ?sends_when_app, ?held_after_deliveries,
            ?sends_when_deliveries;
    auto.
Qed.

(** Every step preserves consistency. *)
Lemma consistent_step (a : action) (σ σ' : System) :
  consistent σ -> perform a σ = Some σ' -> consistent σ'.
Proof.
  intros [Hfree Hnames Hlisted Hclosed Hsound Hquiet Hlocked] H.
  constructor.
  - eapply step_mutex_free; eassumption.
  - eapply step_names_agree; eassumption.
  - eapply step_listed_agree; eassumption.
  - eapply step_refused_closed; eassumption.
  - eapply step_sends_sound; eassumption.
  - eapply step_quiet; eassumption.
  - eapply step_sends_locked; eassumption.
Qed.

Lemma consistent_initial : consistent initial.
Proof.
  constructor; cbn.
  - reflexivity.
  - intros s. now rewrite !lookup_empty.
  - intros s. rewrite lookup_empty. split.
    + intros Hin. now apply not_elem_of_nil in Hin.
    + intros (at_ & [=] & _).
  - intros s. now rewrite lookup_empty.
  - intros th to bytes result Hin. now apply not_elem_of_nil in Hin.
  - intros s. cbn. now rewrite lookup_empty.
  - split; reflexivity.
Qed.

Lemma consistent_run (acts : list action) (σ σ' : System) :
  consistent σ -> run acts σ = Some σ' -> consistent σ'.
Proof.
  revert σ. induction acts as [|a acts IH]; intros σ Hσ Hrun.
  - injection Hrun as <-. assumption.
  - cbn [run] in Hrun. destruct (perform a σ) as [σ1|] eqn:Hstep;
      [| discriminate].
    eapply IH; [| eassumption]. eapply consistent_step; eassumption.
Qed.

Lemma reachable_consistent (σ : System) : reachable σ -> consistent σ.
Proof. intros [acts Hrun]. eapply consistent_run; [apply consistent_initial | eassumption]. Qed.

Lemma run_app (acts1 acts2 : list action) (σ : System) :
  run (acts1 ++ acts2) σ
  = match run acts1 σ with Some σ1 => run acts2 σ1 | None => None end.
Proof.
  revert σ. induction acts1 as [|a acts1 IH]; intros σ; [reflexivity |].
  cbn [app run]. destruct (perform a σ); [apply IH | reflexivity].
Qed.

Lemma reachable_run (acts : list action) (σ σ' : System) :
  reachable σ -> run acts σ = Some σ' -> reachable σ'.
Proof.
  intros [acts0 H0] Hrun. exists (acts0 ++ acts).
  now rewrite run_app, H0.
Qed.

End Invariants.

(** ** The broadcaster *)

Section Broadcaster.

Lemma send_targets_app (t1 t2 : list event) :
  send_targets (t1 ++ t2) = send_targets t1 ++ send_targets t2.
Proof.
  induction t1 as [|e t1 IH]; [reflexivity |].
  destruct e; cbn [app send_targets]; now rewrite IH.
Qed.

Lemma send_targets_deliveries (net : Net) (shut : gset SOCKET)
    (message : string) (sender : SOCKET) (cs : list SOCKET) :
  send_targets (deliveries net shut message sender cs)
  = filter (fun c => c ≠ sender) cs.
Proof.
  unfold deliveries.
  induction (filter (fun c => c ≠ sender) cs) as [|c l IH]; [reflexivity |].
  cbn [flat_map]. rewrite send_targets_app, IH.
  unfold delivery. now destruct (bool_decide _).
Qed.

Lemma failures_logged_deliveries (net : Net) (shut : gset SOCKET)
    (message : string) (l : list SOCKET) :
  failures_logged (flat_map (delivery net shut message) l ++ [EvUnlock])
  = true.
Proof.
  induction l as [|c l IH]; [reflexivity |].
  cbn [flat_map]. unfold delivery at 1. cbn zeta.
  destruct (bool_decide _) eqn:Hresult.
  - cbn [app failures_logged]. rewrite Hresult.
    rewrite bool_decide_eq_true_2 by reflexivity. exact IH.
  - cbn [app failures_logged]. rewrite Hresult.
    destruct l as [|c' l]; [reflexivity |].
    exact IH.
Qed.




(** C4.  Whatever the network answers to each [send], a broadcast returns
    to its caller with the process state as it was, after one [send] to
    every listed handle other than the excluded one, in order; each
    failed [send] is followed by the error line and by the remaining
    deliveries. *)
Theorem broadcast_deliveries_independent (net : Net) (message : string)
    (sender : SOCKET) (w : World) :
  clients_mutex w = false ->
  exists t,
    broadcastMessage net message sender w = Some (tt, w, t) /\
    send_targets t = filter (fun c => c ≠ sender) (clients w) /\
    failures_logged t = true.
Proof.
  intros Hfree. eexists. split_and!.
  - now apply broadcastMessage_eq.
  - cbn [send_targets]. rewrite send_targets_app, send_targets_deliveries.
    apply app_nil_r.
  - cbn [failures_logged]. apply failures_logged_deliveries.
Qed.

Lemma broadcast_deliveries_independent_witness :
  exists t,
    broadcastMessage two_unreachable "hi" 1 three_listed
    = Some (tt, three_listed, t) /\
    send_targets t = filter (fun c => c ≠ 1) (clients three_listed) /\
    failures_logged t = true.
Proof. apply broadcast_deliveries_independent. reflexivity. Defined.

End Broadcaster.

(** ** The handler, one stretch at a time *)

Section Handler.

(** C6.  The removal block run for a handle that has no entry in
    [clientNames] changes nothing and only reports that the entry was
    not found; run twice in a row for the same handle, it leaves the
    state its first run produced. *)
Theorem deregister_idempotent (clientSocket : SOCKET) (clientName : string)
    (w : World) :
  clients_mutex w = false ->
  (clientNames w !! clientSocket = None ->
   deregister clientSocket clientName w
   = Some (clientName, w, [EvLock; EvCerr not_found_line; EvUnlock])) /\
  (exists name1 w1 t1,
     deregister clientSocket clientName w = Some (name1, w1, t1) /\
     clientNames w1 !! clientSocket = None /\
     deregister clientSocket name1 w1
     = Some (name1, w1, [EvLock; EvCerr not_found_line; EvUnlock])).
Proof.
  intros Hfree. split.
  - intros Hgone. rewrite deregister_eq by assumption. now rewrite Hgone.
  - rewrite deregister_eq by assumption.
    destruct (clientNames w !! clientSocket) as [found|] eqn:Hfind.
    + eexists _, _, _. split; [reflexivity |].
      split; [apply lookup_delete_eq |].
      rewrite deregister_eq by reflexivity.
      cbn [clientNames]. now rewrite lookup_delete_eq.
    + eexists _, _, _. split; [reflexivity |].
      split; [assumption |].
      rewrite deregister_eq by assumption. now rewrite Hfind.
Qed.

Lemma deregister_idempotent_witness :
  (clientNames three_listed !! 3 = None ->
   deregister 3 "Cy" three_listed
   = Some ("Cy"%string, three_listed,
           [EvLock; EvCerr not_found_line; EvUnlock])) /\
  (exists name1 w1 t1,
     deregister 1 "Al" three_listed = Some (name1, w1, t1) /\
     clientNames w1 !! 1 = None /\
     deregister 1 name1 w1
     = Some (name1, w1, [EvLock; EvCerr not_found_line; EvUnlock])).
Proof.
  split.
  - apply (deregister_idempotent 3 "Cy" three_listed). reflexivity.
  - apply (deregister_idempotent 1 "Al" three_listed). reflexivity.
Defined.

End Handler.

(** ** The running server *)

Section Running.

Lemma state_after_run (acts : list action) (σ : System) :
  run acts initial = Some σ -> state_after acts = σ.
Proof. unfold state_after. now intros ->. Qed.

Lemma reachable_state_after (acts : list action) :
  is_Some (run acts initial) -> reachable (state_after acts).
Proof.
  intros [σ Hrun]. exists acts. now rewrite (state_after_run _ _ Hrun).
Qed.

(** In every reachable history, the critical sections are bracketed and
    every [send] falls inside one. *)
Lemma sends_always_locked (σ : System) :
  reachable σ ->
  held_after false (map snd (history σ)) = false /\
  sends_when true false (map snd (history σ)) = true.
Proof. intros Hreach. apply reachable_consistent in Hreach. apply Hreach. Qed.




(** A handler that was refused never runs again. *)
Lemma refused_step (a : action) (σ σ' : System) (s : SOCKET) :
  perform a σ = Some σ' ->
  handlers σ !! s = Some Refused ->
  handlers σ' !! s = Some Refused.
Proof.
  intros H Hs. destruct a as [k | net k r]; cbn [perform] in H.
  - destruct (handlers σ !! k) eqn:Hk; [discriminate |].
    destruct (main k (world σ)) as [[[started w'] t]|]; [| discriminate].
    injection H as <-. cbn [handlers].
    destruct started; [| assumption].
    rewrite lookup_insert_ne by congruence. assumption.
  - destruct (handlers σ !! k) as [at_|] eqn:Hk; [| discriminate].
    destruct (recv_fits r); [| discriminate].
    destruct (handleClient net k at_ r (world σ)) as [[[next w'] t]|] eqn:Hrun;
      [| discriminate].
    injection H as <-. cbn [handlers].
    destruct (decide (k = s)) as [-> |].
    + rewrite Hs in Hk. injection Hk as <-. discriminate.
    + rewrite lookup_insert_ne by congruence. assumption.
Qed.

Lemma refused_run (acts : list action) (σ σ' : System) (s : SOCKET) :
  run acts σ = Some σ' ->
  handlers σ !! s = Some Refused ->
  handlers σ' !! s = Some Refused.
Proof.
  revert σ. induction acts as [|a acts IH]; intros σ Hrun Hs.
  - injection Hrun as <-. assumption.
  - cbn [run] in Hrun. destruct (perform a σ) as [σ1|] eqn:Hstep;
      [| discriminate].
    eapply IH; [eassumption |]. eapply refused_step; eassumption.
Qed.

(** The step of a handler whose first read brings no data. *)
Lemma refuse_step (σ : System) (net : Net) (s : SOCKET) (r : recv_result) :
  clients_mutex (world σ) = false ->
  handlers σ !! s = Some Connecting ->
  recv_fits r = true ->
  bytesReceived r <= 0 ->
  perform (Handle net s r) σ
  = Some (mkSystem (set_closed ({[s]} ∪ closed (world σ)) (world σ))
                   (<[s := Refused]> (handlers σ))
                   (history σ ++ [(Handler s, EvCerr name_failed_line);
                                  (Handler s, EvClose s)])).
Proof.
  intros Hfree Hs Hfits Hr. cbn [perform]. rewrite Hs, Hfits.
  rewrite handleClient_eq by assumption.
  destruct (0 <? bytesReceived r) eqn:Hpos; [lia |]. reflexivity.
Qed.

(** C5, as amended.  When the first read of an accepted connection
    returns no data, its handler reports the failure on the server's
    console, closes the socket and returns.  That step and all that
    follows leave [clientNames] without an entry for the handle, and the
    handler thread never locks, sends or broadcasts anything: the two
    events of that step are all it ever does.  The handle itself is in
    [clients] already, where [main] put it when the connection was
    accepted, before the first read. *)
Theorem handshake_failure_is_silent (σ : System) (net : Net) (s : SOCKET)
    (r : recv_result) :
  reachable σ ->
  handlers σ !! s = Some Connecting ->
  recv_fits r = true ->
  bytesReceived r <= 0 ->
  s ∈ clients (world σ) /\
  exists σ1,
    perform (Handle net s r) σ = Some σ1 /\
    handlers σ1 !! s = Some Refused /\
    clientNames (world σ1) = clientNames (world σ) /\
    history σ1 = history σ ++ [(Handler s, EvCerr name_failed_line);
                               (Handler s, EvClose s)] /\
    forall acts σ2,
      run acts σ1 = Some σ2 ->
      handlers σ2 !! s = Some Refused /\
      clientNames (world σ2) !! s = None /\
      events_of (Handler s) (history σ2)
      = [EvCerr name_failed_line; EvClose s].
Proof.
  intros Hreach Hs Hfits Hr.
  pose proof (reachable_consistent _ Hreach) as Hcons.
  split; [apply (listed_agree _ Hcons); now exists Connecting |].
  eexists. split; [apply refuse_step; try assumption; apply Hcons |].
  cbn [handlers world history clients clientNames set_closed].
  split_and!; try reflexivity.
  - apply lookup_insert_eq.
  - intros acts σ2 Hrun.
    assert (handlers σ2 !! s = Some Refused) as Hs2.
    { eapply refused_run; [eassumption |]. apply lookup_insert_eq. }
    assert (consistent σ2) as Hcons2.
    { eapply reachable_consistent, reachable_run; [| eassumption].
      apply (reachable_run [Handle net s r] σ); [exact Hreach |].
      cbn [run]. rewrite refuse_step by (try assumption; apply Hcons).
      reflexivity. }
    split_and!.
    + assumption.
    + rewrite (names_agree _ Hcons2), Hs2. reflexivity.
    + pose proof (own_events _ Hcons2 s) as Hown. now rewrite Hs2 in Hown.
Qed.

Lemma handshake_failure_is_silent_witness :
  1 ∈ clients (world (state_after one_accepted)) /\
  exists σ1,
    perform (Handle all_delivered 1 Shutdown) (state_after one_accepted)
    = Some σ1 /\
    handlers σ1 !! 1 = Some Refused /\
    clientNames (world σ1) = clientNames (world (state_after one_accepted)) /\
    history σ1 = history (state_after one_accepted)
                 ++ [(Handler 1, EvCerr name_failed_line);
                     (Handler 1, EvClose 1)] /\
    forall acts σ2,
      run acts σ1 = Some σ2 ->
      handlers σ2 !! 1 = Some Refused /\
      clientNames (world σ2) !! 1 = None /\
      events_of (Handler 1) (history σ2)
      = [EvCerr name_failed_line; EvClose 1].
Proof.
  apply handshake_failure_is_silent.
  - apply reachable_state_after. vm_compute. eexists. reflexivity.
  - vm_compute. reflexivity.
  - reflexivity.
  - vm_compute. discriminate.
Defined.

(** C5, as stated, fails: the handle of a connection is among the
    broadcast targets from the moment it is accepted, and it still is
    after its handshake has failed: the join notice of the next client
    is sent to it. *)
Lemma refused_handle_is_listed :
  reachable (state_after one_accepted) /\
  handlers (state_after one_accepted) !! 1 = Some Connecting /\
  1 ∈ clients (world (state_after one_accepted)) /\
  reachable (state_after refused_then_join) /\
  handlers (state_after refused_then_join) !! 1 = Some Refused /\
  1 ∈ clients (world (state_after refused_then_join)) /\
  (Handler 2, EvSend 1 (c_str "Bo has joined the chat.") SOCKET_ERROR)
  ∈ history (state_after refused_then_join).
Proof.
  split_and!.
  - apply reachable_state_after. vm_compute. eexists. reflexivity.
  - vm_compute. reflexivity.
  - apply list_elem_of_In. vm_compute. tauto.
  - apply reachable_state_after. vm_compute. eexists. reflexivity.
  - vm_compute. reflexivity.
  - apply list_elem_of_In. vm_compute. tauto.
  - apply list_elem_of_In. vm_compute. tauto.
Qed.

(** A closed handle among the targets of a broadcast gets a [send], which
    fails and is reported. *)
Lemma deliveries_closed_target (net : Net) (shut : gset SOCKET)
    (message : string) (sender s : SOCKET) (cs : list SOCKET) :
  s ∈ cs -> s ≠ sender -> s ∈ shut ->
  exists t1 t2,
    deliveries net shut message sender cs
    = t1 ++ EvSend s (c_str message) SOCKET_ERROR
         :: EvCerr send_failed_line :: t2.
Proof.
  intros Hin Hne Hshut.
  assert (s ∈ filter (fun c => c ≠ sender) cs) as Htarget
    by (apply list_elem_of_filter; auto).
  apply list_elem_of_split in Htarget as (l1 & l2 & Hsplit).
  unfold deliveries. rewrite Hsplit, flat_map_app. cbn [flat_map].
  unfold delivery at 2. rewrite decide_True by assumption.
  rewrite bool_decide_eq_true_2 by reflexivity.
  eexists _, _. reflexivity.
Qed.

(** Only the removal block takes a handle out of [clients]. *)
Lemma unlisted_by_removal (a : action) (σ σ' : System) (x : SOCKET) :
  clients_mutex (world σ) = false ->
  perform a σ = Some σ' ->
  x ∈ clients (world σ) ->
  x ∉ clients (world σ') ->
  exists net r clientName,
    a = Handle net x r /\ handlers σ !! x = Some (Leaving clientName).
Proof.
  intros Hfree H Hin Hout.
  step_cases H Hfree; cbn [world clients set_clients set_closed
                             set_clientNames] in Hout;
    try (now destruct Hout);
    try (destruct Hout; apply elem_of_app; now left).
  destruct (decide (x = s)) as [-> |]; [eauto |].
  destruct Hout. apply list_elem_of_filter. auto.
Qed.

(** X18.  As long as [accept] never returns the same handle number
    twice: when the first read of an accepted connection brings no data,
    the handler closes the socket and leaves [clients] as it is; from
    then on the handle stays in [clients] and stays closed, and every
    later broadcast by another connection makes a [send] to it, which
    fails and is reported.  A step takes a handle out of [clients] only
    if it is the removal block run by that handle's own handler. *)
Theorem refused_handle_stays_listed (σ : System) (net : Net) (s : SOCKET)
    (r : recv_result) :
  reachable σ ->
  handlers σ !! s = Some Connecting ->
  recv_fits r = true ->
  bytesReceived r <= 0 ->
  exists σ1,
    perform (Handle net s r) σ = Some σ1 /\
    clients (world σ1) = clients (world σ) /\
    s ∈ closed (world σ1) /\
    (forall acts σ2,
       run acts σ1 = Some σ2 ->
       s ∈ clients (world σ2) /\ s ∈ closed (world σ2) /\
       forall net' message sender,
         sender ≠ s ->
         exists t1 t2,
           broadcastMessage net' message sender (world σ2)
           = Some (tt, world σ2,
                   t1 ++ EvSend s (c_str message) SOCKET_ERROR
                      :: EvCerr send_failed_line :: t2)) /\
    (forall σ2 a σ3 x,
       reachable σ2 ->
       perform a σ2 = Some σ3 ->
       x ∈ clients (world σ2) ->
       x ∉ clients (world σ3) ->
       exists net' r' clientName,
         a = Handle net' x r' /\
         handlers σ2 !! x = Some (Leaving clientName)).
Proof.
  intros Hreach Hs Hfits Hr.
  pose proof (reachable_consistent _ Hreach) as Hcons.
  assert (forall acts σ2,
    run acts (mkSystem (set_closed ({[s]} ∪ closed (world σ)) (world σ))
                       (<[s := Refused]> (handlers σ))
                       (history σ ++ [(Handler s, EvCerr name_failed_line);
                                      (Handler s, EvClose s)])) = Some σ2 ->
    consistent σ2) as Hlater.
  { intros acts σ2 Hrun.
    eapply reachable_consistent, reachable_run; [| eassumption].
    apply (reachable_run [Handle net s r] σ); [exact Hreach |].
    cbn [run]. rewrite refuse_step by (try assumption; apply Hcons).
    reflexivity. }
  eexists. split; [apply refuse_step; try assumption; apply Hcons |].
  cbn [world clients closed set_closed].
  split_and!.
  - reflexivity.
  - set_solver.
  - intros acts σ2 Hrun. pose proof (Hlater _ _ Hrun) as Hcons2.
    assert (handlers σ2 !! s = Some Refused) as Hs2.
    { eapply refused_run; [eassumption |]. apply lookup_insert_eq. }
    assert (s ∈ clients (world σ2)) as Hlisted.
    { apply (listed_agree _ Hcons2). now exists Refused. }
    assert (s ∈ closed (world σ2)) as Hclosed
      by now apply (refused_closed _ Hcons2).
    split_and!; try assumption.
    intros net' message sender Hne.
    destruct (deliveries_closed_target net' (closed (world σ2)) message
                sender s (clients (world σ2)))
      as (t1 & t2 & Hsplit); try assumption; [congruence |].
    exists (EvLock :: t1), (t2 ++ [EvUnlock]).
    rewrite broadcastMessage_eq by apply Hcons2.
    rewrite Hsplit. cbn [app]. now rewrite <- app_assoc.
  - intros σ2 a σ3 x Hreach2 Hstep Hin Hout.
    eapply unlisted_by_removal; try eassumption.
    now apply reachable_consistent.
Qed.

Lemma refused_handle_stays_listed_witness :
  exists σ1,
    perform (Handle all_delivered 1 Shutdown) (state_after one_accepted)
    = Some σ1 /\
    clients (world σ1) = clients (world (state_after one_accepted)) /\
    1 ∈ closed (world σ1) /\
    (forall acts σ2,
       run acts σ1 = Some σ2 ->
       1 ∈ clients (world σ2) /\ 1 ∈ closed (world σ2) /\
       forall net' message sender,
         sender ≠ 1 ->
         exists t1 t2,
           broadcastMessage net' message sender (world σ2)
           = Some (tt, world σ2,
                   t1 ++ EvSend 1 (c_str message) SOCKET_ERROR
                      :: EvCerr send_failed_line :: t2)) /\
    (forall σ2 a σ3 x,
       reachable σ2 ->
       perform a σ2 = Some σ3 ->
       x ∈ clients (world σ2) ->
       x ∉ clients (world σ3) ->
       exists net' r' clientName,
         a = Handle net' x r' /\
         handlers σ2 !! x = Some (Leaving clientName)).
Proof.
  apply refused_handle_stays_listed.
  - apply reachable_state_after. vm_compute. eexists. reflexivity.
  - vm_compute. reflexivity.
  - reflexivity.
  - vm_compute. discriminate.
Defined.

(** A handler about to run the removal block finds the entry of its
    handle, holding the name it captured. *)
Lemma leaving_finds_entry (σ : System) (s : SOCKET) (clientName : string) :
  reachable σ ->
  handlers σ !! s = Some (Leaving clientName) ->
  clients_mutex (world σ) = false /\
  clientNames (world σ) !! s = Some clientName.
Proof.
  intros Hreach Hs. apply reachable_consistent in Hreach.
  split; [apply Hreach |].
  rewrite (names_agree _ Hreach), Hs. reflexivity.
Qed.




End Running.

(** ** The bytes on the wire *)

Section Wire.

Lemma until_nul_c_str (text : string) :
  has_nul text = false -> until_nul (c_str text) = text.
Proof.
  unfold c_str. induction text as [|c text IH]; [reflexivity |].
  cbn [has_nul]. rewrite app_cons. cbn [until_nul].
  destruct (is_nul c); [discriminate |].
  cbn [orb]. intros H. now rewrite IH.
Qed.

Lemma client_main_blocks (clientName : string) (userInputs : list string) :
  Client.main clientName userInputs
  = c_str clientName ::
    map c_str (filter (fun u => (0 < String.length u)%nat) userInputs).
Proof.
  unfold Client.main, Client.send_text. rewrite c_str_read. f_equal.
  induction userInputs as [|u us IH]; [reflexivity |].
  cbn [flat_map]. rewrite filter_cons.
  destruct (decide (0 < String.length u)%nat) as [Hpos | Hpos].
  - assert ((0 <? String.length u)%nat = true) as ->
      by now apply Nat.ltb_lt.
    cbn [map app]. now rewrite c_str_read, IH.
  - assert ((0 <? String.length u)%nat = false) as ->
      by now apply Nat.ltb_nlt.
    exact IH.
Qed.

(** C10, as amended.  Every [send] of a broadcast writes the text and one
    trailing NUL, [message.size() + 1] bytes; the client likewise writes
    its name and every non-empty line with one trailing NUL.  The name
    the server keeps is what [std::string(buf, 0, bytesReceived)] yields:
    the bytes of the first read that precede its first NUL, so for a name
    sent by the client, the name without its terminator.  It is stored
    under the handle as it is, whatever names other handles have. *)
Theorem nul_terminated_wire (net : Net) (message : string) (sender : SOCKET)
    (w : World) (clientName : string) (userInputs : list string)
    (clientSocket : SOCKET) (data : string) (r : recv_result) :
  clients_mutex w = false ->
  (0 < String.length data)%nat ->
  (String.length data < BUFSIZE)%nat \/ has_nul data = true ->
  (exists t,
     broadcastMessage net message sender w = Some (tt, w, t) /\
     forall to bytes result,
       EvSend to bytes result ∈ t ->
       bytes = message +:+ String NUL EmptyString /\
       String.length bytes = (String.length message + 1)%nat) /\
  Client.main clientName userInputs
  = (clientName +:+ String NUL EmptyString) ::
    map (fun u => u +:+ String NUL EmptyString)
        (filter (fun u => (0 < String.length u)%nat) userInputs) /\
  handleClient net clientSocket Connecting (Received data) w
  = Some (Named (until_nul data), w, []) /\
  (has_nul clientName = false ->
   until_nul (clientName +:+ String NUL EmptyString) = clientName) /\
  handleClient net clientSocket (Named (until_nul data)) r w
  = Some (Joining (until_nul data),
          set_clientNames (<[clientSocket := until_nul data]> (clientNames w)) w,
          [EvLock; EvUnlock]).
Proof.
  intros Hfree Hpos Hdefined. split_and!.
  - eexists. split; [now apply broadcastMessage_eq |].
    intros to bytes result Hin.
    apply elem_of_cons in Hin as [[=] | Hin].
    apply elem_of_app in Hin as [Hin | Hin];
      [| apply list_elem_of_singleton in Hin; discriminate].
    apply elem_of_deliveries in Hin as (_ & _ & ->).
    split; [reflexivity | apply c_str_length].
  - apply client_main_blocks.
  - rewrite handleClient_eq by assumption.
    assert (0 <? bytesReceived (Received data) = true) as ->
      by (cbn [bytesReceived]; lia).
    now rewrite string_of_recv.
  - apply until_nul_c_str.
  - now rewrite handleClient_eq.
Qed.

Lemma nul_terminated_wire_witness :
  (exists t,
     broadcastMessage two_unreachable "hi" 1 three_listed
     = Some (tt, three_listed, t) /\
     forall to bytes result,
       EvSend to bytes result ∈ t ->
       bytes = "hi" +:+ String NUL EmptyString /\
       String.length bytes = (String.length "hi" + 1)%nat) /\
  Client.main "Al" ["hi"; EmptyString]%string
  = ("Al" +:+ String NUL EmptyString) ::
    map (fun u => u +:+ String NUL EmptyString)
        (filter (fun u => (0 < String.length u)%nat) ["hi"; EmptyString]%string) /\
  handleClient two_unreachable 3 Connecting (Received (c_str "Al"))
               three_listed
  = Some (Named (until_nul (c_str "Al")), three_listed, []) /\
  (has_nul "Al" = false ->
   until_nul ("Al" +:+ String NUL EmptyString) = "Al"%string) /\
  handleClient two_unreachable 3 (Named (until_nul (c_str "Al"))) Shutdown
               three_listed
  = Some (Joining (until_nul (c_str "Al")),
          set_clientNames (<[3 := until_nul (c_str "Al")]>
                             (clientNames three_listed)) three_listed,
          [EvLock; EvUnlock]).
Proof.
  apply nul_terminated_wire.
  - reflexivity.
  - vm_compute. lia.
  - right. reflexivity.
Defined.

(** C10, as stated, fails: the client sends the name "Al" as the three
    bytes A, l, NUL, and the name the server keeps from a first read of
    those three bytes is the two bytes A, l, not the bytes read. *)
Lemma stored_name_drops_terminator :
  Client.main "Al" [] = [c_str "Al"] /\
  handleClient all_delivered 3 Connecting (Received (c_str "Al")) three_listed
  = Some (Named "Al", three_listed, []) /\
  "Al"%string ≠ c_str "Al".
Proof. split_and!; [reflexivity | vm_compute; reflexivity | discriminate]. Qed.

End Wire.

(** * Further properties *)

(** ** Buffers and conversions *)

Section Buffers.

Lemma has_nul_app (s t : string) :
  has_nul (s +:+ t) = has_nul s || has_nul t.
Proof.
  induction s as [|c s IH]; [reflexivity |].
  rewrite app_cons. cbn [has_nul]. now rewrite IH, orb_assoc.
Qed.

Lemma has_nul_until_nul (data : string) : has_nul (until_nul data) = false.
Proof.
  induction data as [|c data IH]; [reflexivity |].
  cbn [until_nul]. destruct (is_nul c) eqn:Hc; [reflexivity |].
  cbn [has_nul]. now rewrite Hc, IH.
Qed.

Lemma until_nul_has_nul (data : string) :
  has_nul data = true ->
  (String.length (until_nul data) < String.length data)%nat.
Proof.
  induction data as [|c data IH]; [discriminate |].
  cbn [has_nul until_nul]. destruct (is_nul c); cbn [orb String.length].
  - lia.
  - intros H. apply IH in H. lia.
Qed.

Lemma has_nul_zeros (k : nat) : (0 < k)%nat -> has_nul (zeros k) = true.
Proof. destruct k; [lia | reflexivity]. Qed.

Lemma until_nul_first (text rest : string) :
  has_nul text = false -> until_nul (c_str text +:+ rest) = text.
Proof.
  unfold c_str. induction text as [|c text IH]; [reflexivity |].
  cbn [has_nul]. rewrite !app_cons. cbn [until_nul].
  destruct (is_nul c); [discriminate |].
  cbn [orb]. intros H. now rewrite IH.
Qed.

(** After a [recv] that brought data, the conversion of the buffer is
    defined exactly when a NUL lies inside the buffer. *)
Lemma string_of_recv_cases (data : string) :
  (String.length data <= BUFSIZE)%nat ->
  string_of_buf (buf_after (Received data))
                (Z.to_nat (bytesReceived (Received data)))
  = if convertible (Received data) then Some (until_nul data) else None.
Proof.
  intros Hfit. cbn [convertible].
  destruct (String.length data <? BUFSIZE)%nat eqn:Hlen.
  - apply Nat.ltb_lt in Hlen. cbn [orb]. apply string_of_recv. now left.
  - apply Nat.ltb_ge in Hlen. cbn [orb].
    destruct (has_nul data) eqn:Hnul.
    + apply string_of_recv. now right.
    + apply string_of_recv_undefined; [lia | assumption].
Qed.

(** What a conversion yields came out of the buffer. *)
Lemma string_of_recv_from_buffer (r : recv_result) (x : string) :
  recv_fits r = true ->
  0 < bytesReceived r ->
  string_of_buf (buf_after r) (Z.to_nat (bytesReceived r)) = Some x ->
  from_buffer x.
Proof.
  intros Hfit Hpos Hx.
  destruct r as [data | |];
    try (unfold bytesReceived, SOCKET_ERROR in Hpos; lia).
  cbn [recv_fits] in Hfit. apply Nat.leb_le in Hfit.
  rewrite string_of_recv_cases in Hx by assumption.
  destruct (convertible (Received data)) eqn:Hconv; [| discriminate].
  injection Hx as <-. split; [apply has_nul_until_nul |].
  cbn [convertible] in Hconv. apply orb_true_iff in Hconv as [Hlen | Hnul].
  - apply Nat.ltb_lt in Hlen. pose proof (until_nul_length data). lia.
  - apply until_nul_has_nul in Hnul. lia.
Qed.

End Buffers.

(** ** More invariants of the running server *)

Section Orderly.

#[local] Set Warnings "-clear-no-such-hyp".

Lemma perform_fits (net : Net) (s : SOCKET) (r : recv_result)
    (σ σ' : System) :
  perform (Handle net s r) σ = Some σ' -> recv_fits r = true.
Proof.
  cbn [perform]. destruct (handlers σ !! s); [| discriminate].
  now destruct (recv_fits r).
Qed.

Lemma recv_fits_spec (r : recv_result) :
  recv_fits r = true <->
  match r with
  | Received data => (String.length data <= BUFSIZE)%nat
  | _ => True
  end.
Proof. destruct r; cbn [recv_fits]; [apply Nat.leb_le | tauto | tauto]. Qed.

Lemma bytesReceived_positive (r : recv_result) :
  (bytesReceived r =? SOCKET_ERROR) || (bytesReceived r =? 0) = false ->
  0 < bytesReceived r.
Proof. destruct r; unfold bytesReceived, SOCKET_ERROR; cbn; lia || discriminate. Qed.

Lemma step_no_duplicates (a : action) (σ σ' : System) :
  consistent σ ->
  NoDup (clients (world σ)) ->
  perform a σ = Some σ' ->
  NoDup (clients (world σ')).
Proof.
  intros Hcons Hnodup H.
  pose proof (mutex_free _ Hcons) as Hfree.
  step_cases H Hfree; cbn [world clients set_clients set_closed
                             set_clientNames]; try assumption.
  - apply NoDup_app. split_and!; [assumption | | apply NoDup_singleton].
    intros x Hx Hs. apply list_elem_of_singleton in Hs as ->.
    apply (listed_agree _ Hcons) in Hx as (at_ & Hat & _). congruence.
  - now apply NoDup_filter.
Qed.

Lemma step_closed_agree (a : action) (σ σ' : System) :
  clients_mutex (world σ) = false ->
  (forall k, k ∈ closed (world σ) <->
             exists at_, handlers σ !! k = Some at_ /\ returned at_ = true) ->
  perform a σ = Some σ' ->
  forall k, k ∈ closed (world σ') <->
            exists at_, handlers σ' !! k = Some at_ /\ returned at_ = true.
Proof.
  intros Hfree Hclosed H k.
  pose proof (Hclosed k) as Hk.
  step_cases H Hfree; cbn [world handlers closed set_clients set_closed
                             set_clientNames]; try assumption;
    pose proof (Hclosed s) as Hs; rewrite Hh in Hs;
    rewrite ?elem_of_union, ?elem_of_singleton;
    (destruct (decide (k = s)) as [-> |];
     [ rewrite lookup_insert_eq | rewrite lookup_insert_ne by congruence ]);
    naive_solver.
Qed.

Lemma step_clean (a : action) (σ σ' : System) :
  consistent σ ->
  (forall k at_, handlers σ !! k = Some at_ -> clean at_) ->
  perform a σ = Some σ' ->
  forall k at_, handlers σ' !! k = Some at_ -> clean at_.
Proof.
  intros Hcons Hclean H k at' Hat'.
  pose proof (mutex_free _ Hcons) as Hfree.
  assert (match a with
          | Handle _ _ (Received data) => (String.length data <= BUFSIZE)%nat
          | _ => True
          end) as Hfit.
  { destruct a as [| net s r]; [exact I |].
    apply perform_fits, recv_fits_spec in H. now destruct r. }
  step_cases H Hfree; cbn [handlers] in Hat'.
  all: try (eapply Hclean; eassumption).
  all: destruct (decide (k = s)) as [-> |];
    [ rewrite lookup_insert_eq in Hat'; injection Hat' as <-; cbn [clean]
    | rewrite lookup_insert_ne in Hat' by congruence;
      eapply Hclean; eassumption ].
  all: try exact I.
  all: pose proof (Hclean _ _ Hh) as Hmine; cbn [clean] in Hmine.
  all: pose proof (names_agree _ Hcons s) as Hname; rewrite Hh in Hname;
    cbn in Hname.
  all: try tauto.
  - apply (string_of_recv_from_buffer r); [| lia | assumption].
    apply recv_fits_spec. now destruct r.
  - split; [assumption |].
    apply (string_of_recv_from_buffer r); [| | assumption].
    + apply recv_fits_spec. now destruct r.
    + now apply bytesReceived_positive.
  - congruence.
Qed.

Lemma framed_line (clientName text : string) :
  from_buffer clientName ->
  text = joinMessage clientName \/ text = leaveMessage clientName ->
  framed (c_str text).
Proof.
  intros [Hnul Hlen] Htext. exists text. split; [reflexivity |].
  unfold joinMessage, leaveMessage in Htext.
  destruct Htext as [-> | ->]; rewrite has_nul_app, length_app, Hnul;
    (split; [reflexivity |]); cbn [String.length]; unfold BUFSIZE in *; lia.
Qed.

Lemma framed_chat (clientName payload : string) :
  from_buffer clientName -> from_buffer payload ->
  framed (c_str (chatMessage clientName payload)).
Proof.
  intros [Hnul Hlen] [Hnul' Hlen']. eexists. split; [reflexivity |].
  unfold chatMessage.
  rewrite !has_nul_app, !length_app, Hnul, Hnul'.
  split; [reflexivity |]. cbn [String.length]. unfold BUFSIZE in *. lia.
Qed.

Lemma step_framed (a : action) (σ σ' : System) :
  consistent σ ->
  (forall k at_, handlers σ !! k = Some at_ -> clean at_) ->
  (forall th to bytes result,
     (th, EvSend to bytes result) ∈ history σ -> framed bytes) ->
  perform a σ = Some σ' ->
  forall th to bytes result,
    (th, EvSend to bytes result) ∈ history σ' -> framed bytes.
Proof.
  intros Hcons Hclean Hframed H th to bytes result Hin.
  pose proof (mutex_free _ Hcons) as Hfree.
  step_cases H Hfree; cbn [history] in Hin;
    apply elem_of_app in Hin as [Hold | Hnew];
    try (eapply Hframed; eassumption).
  all: try (pose proof (Hclean _ _ Hh) as Hmine; cbn [clean] in Hmine).
  all: apply elem_of_by_thread in Hnew as [-> Hnew].
  all: repeat (apply elem_of_cons in Hnew as [Hnew | Hnew];
               [discriminate |]).
  all: try (now apply not_elem_of_nil in Hnew).
  all: apply elem_of_app in Hnew as [Hnew | Hnew];
    [| apply list_elem_of_singleton in Hnew; discriminate].
  all: apply elem_of_deliveries in Hnew as (_ & _ & ->).
  - eapply framed_line; [eassumption | now left].
  - now apply framed_chat.
  - eapply framed_line; [eassumption | now right].
Qed.

Lemma step_valid_handles (a : action) (σ σ' : System) :
  clients_mutex (world σ) = false ->
  handlers σ !! INVALID_SOCKET = None ->
  perform a σ = Some σ' ->
  handlers σ' !! INVALID_SOCKET = None.
Proof.
  intros Hfree Hvalid H.
  step_cases H Hfree; cbn [handlers]; try assumption;
    rewrite lookup_insert_ne by congruence; assumption.
Qed.

Lemma orderly_step (a : action) (σ σ' : System) :
  consistent σ -> orderly σ -> perform a σ = Some σ' -> orderly σ'.
Proof.
  intros Hcons [Hnodup Hclosed Hclean Hframed Hvalid] H.
  pose proof (mutex_free _ Hcons) as Hfree.
  constructor.
  - eapply step_no_duplicates; eassumption.
  - eapply step_closed_agree; eassumption.
  - eapply step_clean; eassumption.
  - eapply step_framed; eassumption.
  - eapply step_valid_handles; eassumption.
Qed.

Lemma orderly_initial : orderly initial.
Proof.
  constructor; cbn.
  - apply NoDup_nil_2.
  - intros k. rewrite lookup_empty. split; [set_solver |].
    intros (at_ & [=] & _).
  - intros k at_. now rewrite lookup_empty.
  - intros th to bytes result Hin. now apply not_elem_of_nil in Hin.
  - apply lookup_empty.
Qed.

Lemma orderly_run (acts : list action) (σ σ' : System) :
  consistent σ -> orderly σ -> run acts σ = Some σ' -> orderly σ'.
Proof.
  revert σ. induction acts as [|a acts IH]; intros σ Hcons Hσ Hrun.
  - injection Hrun as <-. assumption.
  - cbn [run] in Hrun. destruct (perform a σ) as [σ1|] eqn:Hstep;
      [| discriminate].
    eapply IH; [| | eassumption].
    + eapply consistent_step; eassumption.
    + eapply orderly_step; eassumption.
Qed.

Lemma reachable_orderly (σ : System) : reachable σ -> orderly σ.
Proof.
  intros [acts Hrun].
  eapply orderly_run; [apply consistent_initial | apply orderly_initial |].
  eassumption.
Qed.

End Orderly.

(** ** Further properties of the running server *)

Section Delivery.




Lemma count_sends_app (k : SOCKET) (t1 t2 : list event) :
  count_sends_to k (t1 ++ t2)
  = (count_sends_to k t1 + count_sends_to k t2)%nat.
Proof.
  induction t1 as [|e t1 IH]; [reflexivity |].
  destruct e; cbn [app count_sends_to]; rewrite IH; lia.
Qed.

Lemma count_sends_delivery (net : Net) (shut : gset SOCKET)
    (message : string) (c k : SOCKET) :
  count_sends_to k (delivery net shut message c)
  = if bool_decide (c = k) then 1%nat else 0%nat.
Proof.
  unfold delivery. cbn [count_sends_to].
  destruct (bool_decide (_ = SOCKET_ERROR)); cbn [count_sends_to]; lia.
Qed.

Lemma count_sends_deliveries (net : Net) (shut : gset SOCKET)
    (message : string) (sender k : SOCKET) (cs : list SOCKET) :
  NoDup cs ->
  count_sends_to k (deliveries net shut message sender cs)
  = if bool_decide (k ≠ sender /\ k ∈ cs) then 1%nat else 0%nat.
Proof.
  unfold deliveries. induction 1 as [|c cs Hc Hnodup IH].
  - cbn. rewrite bool_decide_eq_false_2; [reflexivity |].
    intros [_ Hin]. now apply not_elem_of_nil in Hin.
  - rewrite filter_cons.
    destruct (decide (c ≠ sender)) as [Hne | Heq].
    + cbn [flat_map].
      rewrite count_sends_app, count_sends_delivery, IH.
      destruct (decide (c = k)) as [-> | Hck].
      * rewrite bool_decide_eq_true_2 by reflexivity.
        rewrite (bool_decide_eq_false_2 (_ /\ k ∈ cs)) by tauto.
        rewrite bool_decide_eq_true_2; [reflexivity |].
        split; [assumption | left].
      * rewrite (bool_decide_eq_false_2 (c = k)) by assumption.
        cbn [Nat.add].
        rewrite (bool_decide_ext (k ≠ sender /\ k ∈ cs)
                                 (k ≠ sender /\ k ∈ c :: cs));
          [reflexivity |].
        rewrite elem_of_cons. naive_solver.
    + rewrite IH.
      rewrite (bool_decide_ext (k ≠ sender /\ k ∈ cs)
                               (k ≠ sender /\ k ∈ c :: cs));
        [reflexivity |].
      rewrite elem_of_cons. apply dec_stable in Heq. naive_solver.
Qed.

End Delivery.

(** ** Lifetime of a connection *)

Section Lifetime.



(** X4.  As long as [accept] never returns a handle twice, [clients]
    never holds a handle twice. *)
Theorem clients_never_repeats (σ : System) :
  reachable σ -> NoDup (clients (world σ)).
Proof. intros Hreach. apply (no_duplicates _ (reachable_orderly _ Hreach)). Qed.

Lemma clients_never_repeats_witness :
  NoDup (clients (world (state_after refused_then_join))).
Proof.
  apply clients_never_repeats.
  apply reachable_state_after. vm_compute. eexists. reflexivity.
Defined.

(** A handler that has run the removal block stays past it. *)
Lemma unlisted_step (a : action) (σ σ' : System) (s : SOCKET) (at_ : phase) :
  clients_mutex (world σ) = false ->
  perform a σ = Some σ' ->
  handlers σ !! s = Some at_ -> listed at_ = false ->
  exists at', handlers σ' !! s = Some at' /\ listed at' = false.
Proof.
  intros Hfree H Hs Hgone.
  step_cases H Hfree; cbn [handlers]; eauto.
  all: destruct (decide (s = s0)) as [-> |];
    [ rewrite lookup_insert_eq; rewrite Hs in Hh;
      first [ discriminate Hh
            | injection Hh as ->; first [ discriminate Hgone | eauto ] ]
    | rewrite lookup_insert_ne by congruence; eauto ].
Qed.

(** A step sends only to handles that are in [clients] when it starts. *)
Lemma new_sends_are_listed (a : action) (σ σ' : System) (th : thread)
    (to : SOCKET) (bytes : string) (result : Z) :
  clients_mutex (world σ) = false ->
  perform a σ = Some σ' ->
  (th, EvSend to bytes result) ∈ history σ' ->
  (th, EvSend to bytes result) ∈ history σ \/ to ∈ clients (world σ).
Proof.
  intros Hfree H Hin.
  step_cases H Hfree; cbn [history] in Hin;
    apply elem_of_app in Hin as [Hold | Hnew]; try (now left).
  all: apply elem_of_by_thread in Hnew as [-> Hnew].
  all: repeat (apply elem_of_cons in Hnew as [Hnew | Hnew];
               [discriminate |]).
  all: try (now apply not_elem_of_nil in Hnew).
  all: apply elem_of_app in Hnew as [Hnew | Hnew];
    [| apply list_elem_of_singleton in Hnew; discriminate].
  all: apply elem_of_deliveries in Hnew as (_ & Hlisted & _); now right.
Qed.

(** X5.  As long as [accept] never returns the same handle number
    twice, a handle does not come back once its handler has run the
    removal block: in every later state it is neither in [clients] nor
    in [clientNames], and no [send] is ever made to it again. *)
Theorem deregistered_for_good (σ : System) (s : SOCKET) (at_ : phase)
    (acts : list action) (σ2 : System) :
  reachable σ ->
  handlers σ !! s = Some at_ ->
  listed at_ = false ->
  run acts σ = Some σ2 ->
  (s ∉ clients (world σ2)) /\
  clientNames (world σ2) !! s = None /\
  forall th bytes result,
    (th, EvSend s bytes result) ∈ history σ2 ->
    (th, EvSend s bytes result) ∈ history σ.
Proof.
  intros Hreach. revert σ Hreach at_.
  induction acts as [|a acts IH]; intros σ Hreach at_ Hs Hgone Hrun;
    pose proof (reachable_consistent _ Hreach) as Hcons.
  - injection Hrun as <-. split_and!.
    + rewrite (listed_agree _ Hcons). intros (at' & Hat' & Hlisted).
      congruence.
    + rewrite (names_agree _ Hcons), Hs. now destruct at_.
    + auto.
  - cbn [run] in Hrun. destruct (perform a σ) as [σ1|] eqn:Hstep;
      [| discriminate].
    destruct (unlisted_step a σ σ1 s at_) as (at1 & Hs1 & Hgone1);
      try assumption; [apply Hcons |].
    assert (reachable σ1) as Hreach1.
    { apply (reachable_run [a] σ); [assumption |].
      cbn [run]. now rewrite Hstep. }
    destruct (IH σ1 Hreach1 at1 Hs1 Hgone1 Hrun) as (Hout & Hname & Hsends).
    split_and!; try assumption.
    intros th bytes result Hin. apply Hsends in Hin.
    destruct (new_sends_are_listed a σ σ1 th s bytes result)
      as [Hold | Hlisted]; try assumption; [apply Hcons |].
    apply (listed_agree _ Hcons) in Hlisted as (at' & Hat' & Hlisted).
    congruence.
Qed.

Lemma deregistered_for_good_witness :
  (1 ∉ clients (world (state_after (al_says_hi ++ [Accept 3])))) /\
  clientNames (world (state_after (al_says_hi ++ [Accept 3]))) !! 1 = None /\
  forall th bytes result,
    (th, EvSend 1 bytes result)
    ∈ history (state_after (al_says_hi ++ [Accept 3])) ->
    (th, EvSend 1 bytes result) ∈ history (state_after al_says_hi).
Proof.
  apply (deregistered_for_good (state_after al_says_hi) 1 (Finished "Al")
                               [Accept 3]).
  - apply reachable_state_after. vm_compute. eexists. reflexivity.
  - vm_compute. reflexivity.
  - reflexivity.
  - vm_compute. reflexivity.
Defined.

(** X6.  When [accept] fails, the server writes one line on its console
    and changes nothing else: no handle is added to [clients], no thread
    is started, and the accept loop goes on. *)
Theorem failed_accept_changes_nothing (σ : System) :
  reachable σ ->
  perform (Accept INVALID_SOCKET) σ
  = Some (mkSystem (world σ) (handlers σ)
                   (history σ ++ [(Listener, EvCerr accept_failed_line)])).
Proof.
  intros Hreach. cbn [perform].
  rewrite (valid_handles _ (reachable_orderly _ Hreach)).
  rewrite main_eq by apply (reachable_consistent _ Hreach).
  now rewrite bool_decide_eq_true_2.
Qed.

Lemma failed_accept_changes_nothing_witness :
  perform (Accept INVALID_SOCKET) (state_after refused_then_join)
  = Some (mkSystem (world (state_after refused_then_join))
                   (handlers (state_after refused_then_join))
                   (history (state_after refused_then_join)
                    ++ [(Listener, EvCerr accept_failed_line)])).
Proof.
  apply failed_accept_changes_nothing.
  apply reachable_state_after. vm_compute. eexists. reflexivity.
Defined.

End Lifetime.

(** ** Framing of the blocks *)

Section Framing.

(** X7.  Every block the server has written holds exactly one NUL, its
    last byte: names and payloads come out of receive buffers and hold
    none, nor do the fixed texts around them.  The bytes before the first
    NUL of a block are therefore the whole text. *)
Theorem blocks_end_at_first_nul (σ : System) (th : thread) (to : SOCKET)
    (bytes : string) (result : Z) :
  reachable σ ->
  (th, EvSend to bytes result) ∈ history σ ->
  exists text,
    bytes = text +:+ String NUL EmptyString /\
    has_nul text = false /\
    until_nul bytes = text.
Proof.
  intros Hreach Hin.
  destruct (framed_sends _ (reachable_orderly _ Hreach) _ _ _ _ Hin)
    as (text & -> & Hnul & _).
  exists text. split_and!; [reflexivity | assumption |].
  now apply until_nul_c_str.
Qed.

Lemma blocks_end_at_first_nul_witness :
  exists text,
    c_str "Al: hi" = text +:+ String NUL EmptyString /\
    has_nul text = false /\
    until_nul (c_str "Al: hi") = text.
Proof.
  apply (blocks_end_at_first_nul (state_after al_says_hi) (Handler 1) 2
                                 (c_str "Al: hi") 7).
  - apply reachable_state_after. vm_compute. eexists. reflexivity.
  - apply list_elem_of_In. vm_compute. tauto.
Defined.

(** X8.  No block the server writes is longer than two receive buffers
    and one byte (8193 bytes): a name and a payload are each shorter than
    a buffer.  The length [message.size() + 1] handed to [send] as an
    [int] is therefore far from overflowing. *)
Theorem blocks_are_bounded (σ : System) (th : thread) (to : SOCKET)
    (bytes : string) (result : Z) :
  reachable σ ->
  (th, EvSend to bytes result) ∈ history σ ->
  (String.length bytes <= 2 * BUFSIZE + 1)%nat /\
  Z.of_nat (String.length bytes) < 2 ^ 31.
Proof.
  intros Hreach Hin.
  destruct (framed_sends _ (reachable_orderly _ Hreach) _ _ _ _ Hin)
    as (text & -> & _ & Hlen).
  rewrite c_str_length. unfold BUFSIZE in *. lia.
Qed.

Lemma blocks_are_bounded_witness :
  (String.length (c_str "Al: hi") <= 2 * BUFSIZE + 1)%nat /\
  Z.of_nat (String.length (c_str "Al: hi")) < 2 ^ 31.
Proof.
  apply (blocks_are_bounded (state_after al_says_hi) (Handler 1) 2
                            (c_str "Al: hi") 7).
  - apply reachable_state_after. vm_compute. eexists. reflexivity.
  - apply list_elem_of_In. vm_compute. tauto.
Defined.

(** X9.  The receiving thread of the client prints, for every [recv]
    that brings data, the bytes before the first NUL of that data; a
    [recv] that reports an error or the end of the connection prints
    nothing and does not stop the loop, which goes on to the next
    [recv]. *)
Theorem receiveMessages_prints (rs : list recv_result) :
  Forall (fun r => recv_fits r = true /\ convertible r = true) rs ->
  Client.receiveMessages rs = Some (omap printed rs).
Proof.
  induction 1 as [|r rs [Hfit Hconv] Hrs IH]; [reflexivity |].
  cbn [Client.receiveMessages omap list_omap]. rewrite IH.
  destruct r as [data | |]; try reflexivity.
  apply recv_fits_spec in Hfit.
  rewrite string_of_recv_cases, Hconv by assumption.
  cbn [bytesReceived printed].
  destruct (0 <? String.length data)%nat eqn:Hpos.
  - apply Nat.ltb_lt in Hpos.
    assert ((0 <? Z.of_nat (String.length data)) = true) as -> by lia.
    reflexivity.
  - apply Nat.ltb_ge in Hpos.
    assert ((0 <? Z.of_nat (String.length data)) = false) as -> by lia.
    reflexivity.
Qed.

Lemma receiveMessages_prints_witness :
  Client.receiveMessages
    [Received (c_str "Al: hi"); RecvFailed; Shutdown;
     Received (c_str "Al has left the chat.")]
  = Some (omap printed
            [Received (c_str "Al: hi"); RecvFailed; Shutdown;
             Received (c_str "Al has left the chat.")]).
Proof.
  apply receiveMessages_prints.
  repeat constructor.
Defined.

(** X10.  A block written by the server and received whole by a client,
    in one [recv], is printed by that client as exactly the text that
    was broadcast. *)
Theorem client_prints_broadcast (σ : System) (th : thread) (to : SOCKET)
    (bytes : string) (result : Z) :
  reachable σ ->
  (th, EvSend to bytes result) ∈ history σ ->
  (String.length bytes <= BUFSIZE)%nat ->
  exists text,
    bytes = c_str text /\
    Client.receiveMessages [Received bytes] = Some [text].
Proof.
  intros Hreach Hin Hfit.
  destruct (framed_sends _ (reachable_orderly _ Hreach) _ _ _ _ Hin)
    as (text & -> & Hnul & _).
  exists text. split; [reflexivity |].
  rewrite receiveMessages_prints.
  - cbn [omap list_omap printed]. rewrite c_str_length.
    assert ((0 <? String.length text + 1)%nat = true) as ->
      by (apply Nat.ltb_lt; lia).
    now rewrite until_nul_c_str.
  - constructor; [| constructor]. split.
    + now apply recv_fits_spec.
    + cbn [convertible]. unfold c_str. rewrite has_nul_app.
      cbn. now rewrite !orb_true_r.
Qed.

Lemma client_prints_broadcast_witness :
  exists text,
    c_str "Al: hi" = c_str text /\
    Client.receiveMessages [Received (c_str "Al: hi")] = Some [text].
Proof.
  apply (client_prints_broadcast (state_after al_says_hi) (Handler 1) 2
                                 (c_str "Al: hi") 7).
  - apply reachable_state_after. vm_compute. eexists. reflexivity.
  - apply list_elem_of_In. vm_compute. tauto.
  - vm_compute. lia.
Defined.

End Framing.

(** ** Reads that do not match one block *)

Section Reads.

Lemma not_convertible (data : string) :
  (String.length data <= BUFSIZE)%nat ->
  convertible (Received data) = false <->
  String.length data = BUFSIZE /\ has_nul data = false.
Proof.
  intros Hfit. cbn [convertible]. rewrite orb_false_iff, Nat.ltb_ge.
  split; intros [Hlen Hnul]; (split; [lia | assumption]).
Qed.

(** X11.  A [recv] that fills the whole buffer with bytes none of which
    is NUL leaves no terminator in [buf], and only then: in that case,
    and in no other, the conversion [std::string(buf, 0, bytesReceived)]
    looks for the end of the string beyond the 4096 bytes of the array.
    This holds for the name read and the message read of the server and
    for the read of the client's receiving thread alike. *)
Theorem full_buffer_is_over_read (net : Net) (clientSocket : SOCKET)
    (clientName data : string) (w : World) :
  clients_mutex w = false ->
  (0 < String.length data <= BUFSIZE)%nat ->
  (handleClient net clientSocket Connecting (Received data) w = None <->
   String.length data = BUFSIZE /\ has_nul data = false) /\
  (handleClient net clientSocket (Active clientName) (Received data) w = None
   <-> String.length data = BUFSIZE /\ has_nul data = false) /\
  (Client.receiveMessages [Received data] = None <->
   String.length data = BUFSIZE /\ has_nul data = false).
Proof.
  intros Hfree [Hpos Hfit].
  assert ((0 <? bytesReceived (Received data)) = true) as Hgot
    by (cbn [bytesReceived]; lia).
  assert ((bytesReceived (Received data) =? SOCKET_ERROR)
          || (bytesReceived (Received data) =? 0) = false) as Hnot_end
    by (cbn [bytesReceived]; unfold SOCKET_ERROR; lia).
  rewrite <- !not_convertible by assumption.
  rewrite !handleClient_eq by assumption.
  cbn [Client.receiveMessages].
  rewrite Hgot, Hnot_end, string_of_recv_cases by assumption.
  destruct (convertible (Received data)); cbn; split_and!; split;
    congruence.
Qed.

Lemma full_buffer_is_over_read_witness :
  (handleClient all_delivered 3 Connecting (Received (c_str "Al"))
                three_listed = None <->
   String.length (c_str "Al") = BUFSIZE /\ has_nul (c_str "Al") = false) /\
  (handleClient all_delivered 3 (Active "Cy") (Received (c_str "Al"))
                three_listed = None <->
   String.length (c_str "Al") = BUFSIZE /\ has_nul (c_str "Al") = false) /\
  (Client.receiveMessages [Received (c_str "Al")] = None <->
   String.length (c_str "Al") = BUFSIZE /\ has_nul (c_str "Al") = false).
Proof.
  apply full_buffer_is_over_read; [reflexivity | vm_compute; lia].
Defined.

(** X12.  When one [recv] brings a block followed by more bytes -- two
    writes of the peer that the transport has joined -- only the block
    before the first NUL is used, and the bytes after it are dropped
    without a trace: the server keeps the name and loses the message
    that followed it, relays the first message and loses the second, and
    the client prints the first text only. *)
Theorem coalesced_tail_is_dropped (net : Net) (clientSocket : SOCKET)
    (clientName first rest : string) (w : World) :
  clients_mutex w = false ->
  has_nul first = false ->
  (String.length (c_str first +:+ rest) <= BUFSIZE)%nat ->
  handleClient net clientSocket Connecting
               (Received (c_str first +:+ rest)) w
  = Some (Named first, w, []) /\
  handleClient net clientSocket (Active clientName)
               (Received (c_str first +:+ rest)) w
  = Some (Relaying clientName first, w, []) /\
  Client.receiveMessages [Received (c_str first +:+ rest)] = Some [first].
Proof.
  intros Hfree Hnul Hfit.
  assert (0 < String.length (c_str first +:+ rest))%nat as Hpos
    by (rewrite length_app, c_str_length; lia).
  assert (convertible (Received (c_str first +:+ rest)) = true) as Hconv.
  { cbn [convertible]. unfold c_str. rewrite !has_nul_app. cbn [has_nul].
    assert (is_nul NUL = true) as -> by reflexivity.
    now rewrite !orb_true_r. }
  assert ((0 <? bytesReceived (Received (c_str first +:+ rest))) = true)
    as Hgot
    by (cbn [bytesReceived]; lia).
  assert ((bytesReceived (Received (c_str first +:+ rest)) =? SOCKET_ERROR)
          || (bytesReceived (Received (c_str first +:+ rest)) =? 0) = false)
    as Hnot_end by (cbn [bytesReceived]; unfold SOCKET_ERROR; lia).
  rewrite !handleClient_eq by assumption.
  cbn [Client.receiveMessages].
  rewrite Hgot, Hnot_end, string_of_recv_cases, Hconv by assumption.
  rewrite until_nul_first by assumption.
  split_and!; reflexivity.
Qed.

Lemma coalesced_tail_is_dropped_witness :
  handleClient all_delivered 3 Connecting
               (Received (c_str "Cy" +:+ c_str "hello")) three_listed
  = Some (Named "Cy", three_listed, []) /\
  handleClient all_delivered 3 (Active "Al")
               (Received (c_str "Cy" +:+ c_str "hello")) three_listed
  = Some (Relaying "Al" "Cy", three_listed, []) /\
  Client.receiveMessages [Received (c_str "Cy" +:+ c_str "hello")]
  = Some ["Cy"%string].
Proof.
  apply coalesced_tail_is_dropped;
    [reflexivity | reflexivity | vm_compute; lia].
Defined.

(** X13.  Storing a name and running the removal block undo each other:
    after the store the handle's entry is the name and every other entry
    is as before; the removal block then finds that name whatever the
    local variable holds, reports the disconnection, takes the handle
    out of [clients] and its entry out of [clientNames], and touches no
    other entry.  If the handle had no entry before, [clientNames] is
    back to what it was. *)
Theorem store_then_remove (net : Net) (clientSocket : SOCKET)
    (clientName other : string) (r : recv_result) (w : World) :
  clients_mutex w = false ->
  exists w1 w2,
    handleClient net clientSocket (Named clientName) r w
    = Some (Joining clientName, w1, [EvLock; EvUnlock]) /\
    clientNames w1 !! clientSocket = Some clientName /\
    (forall k, k ≠ clientSocket ->
               clientNames w1 !! k = clientNames w !! k) /\
    clients w1 = clients w /\
    deregister clientSocket other w1
    = Some (clientName, w2,
            [EvLock; EvCout ("Client '" +:+ clientName +:+ "' disconnected.");
             EvUnlock]) /\
    clients w2 = filter (fun c => c ≠ clientSocket) (clients w) /\
    clientNames w2 = delete clientSocket (clientNames w) /\
    (clientNames w !! clientSocket = None -> clientNames w2 = clientNames w).
Proof.
  intros Hfree. eexists _, _.
  rewrite handleClient_eq by assumption.
  split; [reflexivity |].
  cbn [clientNames clients set_clientNames].
  split; [apply lookup_insert_eq |].
  split; [intros k Hk; now rewrite lookup_insert_ne |].
  split; [reflexivity |].
  rewrite deregister_eq by assumption.
  cbn [clientNames clients set_clientNames]. rewrite lookup_insert_eq.
  split; [reflexivity |].
  cbn [clientNames clients].
  split; [reflexivity |].
  split; [apply delete_insert_eq |].
  intros Hnone. rewrite delete_insert_eq. now apply delete_id.
Qed.

Lemma store_then_remove_witness :
  exists w1 w2,
    handleClient all_delivered 3 (Named "Cy") Shutdown three_listed
    = Some (Joining "Cy", w1, [EvLock; EvUnlock]) /\
    clientNames w1 !! 3 = Some "Cy"%string /\
    (forall k, k ≠ 3 -> clientNames w1 !! k = clientNames three_listed !! k) /\
    clients w1 = clients three_listed /\
    deregister 3 "Zed" w1
    = Some ("Cy"%string, w2,
            [EvLock; EvCout ("Client '" +:+ "Cy" +:+ "' disconnected.");
             EvUnlock]) /\
    clients w2 = filter (fun c => c ≠ 3) (clients three_listed) /\
    clientNames w2 = delete 3 (clientNames three_listed) /\
    (clientNames three_listed !! 3 = None ->
     clientNames w2 = clientNames three_listed).
Proof. apply store_then_remove. reflexivity. Defined.

End Reads.

(** ** Set-up of the two programs *)

Section Setup.

Ltac setup_cases :=
  repeat match goal with
    | |- context [negb (?x =? 0)] =>
        destruct (Z.eqb_spec x 0); cbn [negb]
    | |- context [?x =? ?y] => destruct (Z.eqb_spec x y)
    end;
  cbn [fst snd];
  repeat split; intros;
  repeat match goal with
    | H : _ /\ _ |- _ => destruct H
    | H : _ ∈ _ :: _ |- _ => apply elem_of_cons in H as [H | H]
    | H : _ ∈ [] |- _ => now apply not_elem_of_nil in H
    end;
  subst;
  try congruence; try discriminate;
  try (repeat constructor; fail).

(** X14.  The set-up of the server goes on to the accept loop exactly
    when [WSAStartup], [socket], [bind] and [listen] all succeed, and
    only then announces that it listens; otherwise [main] returns 1,
    having released exactly what it held: [WSACleanup] is called once
    Winsock was started, and the listening socket, and no other, is
    closed once it was created. *)
Theorem server_startup_releases (wsa : Z) (sock : SOCKET)
    (bound listening : Z) :
  (fst (Server.startup wsa sock bound listening) = Client.Proceed sock <->
   wsa = 0 /\ sock ≠ INVALID_SOCKET /\ bound ≠ SOCKET_ERROR /\
   listening ≠ SOCKET_ERROR) /\
  (fst (Server.startup wsa sock bound listening) ≠ Client.Proceed sock ->
   fst (Server.startup wsa sock bound listening) = Client.Exit 1) /\
  (Client.SetupCleanup ∈ snd (Server.startup wsa sock bound listening) <->
   wsa = 0 /\
   fst (Server.startup wsa sock bound listening) = Client.Exit 1) /\
  (forall x,
     Client.SetupClose x ∈ snd (Server.startup wsa sock bound listening) <->
     x = sock /\ wsa = 0 /\ sock ≠ INVALID_SOCKET /\
     fst (Server.startup wsa sock bound listening) = Client.Exit 1) /\
  (Client.SetupCout "Server is listening on port 54000..."
   ∈ snd (Server.startup wsa sock bound listening) <->
   fst (Server.startup wsa sock bound listening) = Client.Proceed sock).
Proof. unfold Server.startup. setup_cases. Qed.

(** X15.  The set-up of the client goes on to the name prompt exactly
    when [WSAStartup], [socket] and [connect] all succeed; otherwise
    [main] returns 1, having released exactly what it held:
    [WSACleanup] is called once Winsock was started, and the socket, and
    no other, is closed once it was created. *)
Theorem client_startup_releases (wsa : Z) (sock : SOCKET) (conn : Z) :
  (fst (Client.startup wsa sock conn) = Client.Proceed sock <->
   wsa = 0 /\ sock ≠ INVALID_SOCKET /\ conn ≠ SOCKET_ERROR) /\
  (fst (Client.startup wsa sock conn) ≠ Client.Proceed sock ->
   fst (Client.startup wsa sock conn) = Client.Exit 1) /\
  (Client.SetupCleanup ∈ snd (Client.startup wsa sock conn) <->
   wsa = 0 /\ fst (Client.startup wsa sock conn) = Client.Exit 1) /\
  (forall x,
     Client.SetupClose x ∈ snd (Client.startup wsa sock conn) <->
     x = sock /\ wsa = 0 /\ sock ≠ INVALID_SOCKET /\
     fst (Client.startup wsa sock conn) = Client.Exit 1).
Proof. unfold Client.startup. setup_cases. Qed.

End Setup.

(** ** From one client to another *)

Section EndToEnd.

Lemma send_text_c_str (text : string) : Client.send_text text = c_str text.
Proof. apply c_str_read. Qed.

Lemma elem_of_client_main (clientName : string) (userInputs : list string)
    (block : string) :
  block ∈ Client.main clientName userInputs ->
  exists text, block = c_str text /\
               (text = clientName \/ text ∈ userInputs).
Proof.
  rewrite client_main_blocks, elem_of_cons, list_elem_of_fmap.
  intros [-> | (u & -> & Hu)]; [eauto |].
  apply list_elem_of_filter in Hu as [_ Hu]. eauto.
Qed.

(** X16.  No block the client writes is taken by the server for the end
    of the connection: a block of the client, received whole, always
    counts as data, so the first one is stored as the name and any later
    one is relayed -- also the block of an empty name, a single NUL,
    which registers the empty name.  What is kept is the text the user
    typed, up to its first NUL if it has one. *)
Theorem client_blocks_are_data (net : Net) (clientSocket : SOCKET)
    (clientName typedName : string) (userInputs : list string)
    (block : string) (w : World) :
  clients_mutex w = false ->
  block ∈ Client.main typedName userInputs ->
  (String.length block <= BUFSIZE)%nat ->
  exists text,
    block = c_str text /\
    (text = typedName \/ text ∈ userInputs) /\
    handleClient net clientSocket Connecting (Received block) w
    = Some (Named (until_nul text), w, []) /\
    handleClient net clientSocket (Active clientName) (Received block) w
    = Some (Relaying clientName (until_nul text), w, []) /\
    (has_nul text = false -> until_nul text = text).
Proof.
  intros Hfree Hblock Hfit.
  apply elem_of_client_main in Hblock as (text & -> & Hfrom).
  exists text. split; [reflexivity |]. split; [assumption |].
  assert (until_nul (c_str text) = until_nul text) as Hsame.
  { unfold c_str. clear. induction text as [|c text IH]; [reflexivity |].
    rewrite app_cons. cbn [until_nul]. destruct (is_nul c); congruence. }
  assert (convertible (Received (c_str text)) = true) as Hconv.
  { cbn [convertible]. unfold c_str. rewrite has_nul_app. cbn [has_nul].
    assert (is_nul NUL = true) as -> by reflexivity.
    now rewrite !orb_true_r. }
  assert ((0 <? bytesReceived (Received (c_str text))) = true) as Hgot.
  { cbn [bytesReceived]. rewrite c_str_length. apply Z.ltb_lt. lia. }
  assert ((bytesReceived (Received (c_str text)) =? SOCKET_ERROR)
          || (bytesReceived (Received (c_str text)) =? 0) = false)
    as Hnot_end.
  { cbn [bytesReceived]. rewrite c_str_length. apply orb_false_iff.
    split; apply Z.eqb_neq; unfold SOCKET_ERROR; lia. }
  rewrite !handleClient_eq by assumption.
  rewrite Hgot, Hnot_end, string_of_recv_cases, Hconv, Hsame by assumption.
  split_and!; try reflexivity.
  intros Hnul. rewrite <- Hsame. now apply until_nul_c_str.
Qed.

Lemma client_blocks_are_data_witness :
  exists text,
    c_str EmptyString = c_str text /\
    (text = EmptyString \/ text ∈ ["hi"%string]) /\
    handleClient all_delivered 3 Connecting (Received (c_str EmptyString))
                 three_listed
    = Some (Named (until_nul text), three_listed, []) /\
    handleClient all_delivered 3 (Active "Cy") (Received (c_str EmptyString))
                 three_listed
    = Some (Relaying "Cy" (until_nul text), three_listed, []) /\
    (has_nul text = false -> until_nul text = text).
Proof.
  apply (client_blocks_are_data all_delivered 3 "Cy" EmptyString
                                ["hi"%string] (c_str EmptyString)).
  - reflexivity.
  - apply list_elem_of_In. vm_compute. tauto.
  - vm_compute. lia.
Defined.

(** X17.  A line typed at one client comes out at every other client as
    the sender's name, a colon, a space and the line: when the line has
    no NUL and each block travels in one piece, the server relays the
    block of the line as that text, and a client that receives the
    relayed block prints exactly that text. *)
Theorem line_round_trip (net : Net) (clientSocket : SOCKET)
    (clientName line : string) (r : recv_result) (w : World) :
  clients_mutex w = false ->
  has_nul clientName = false ->
  has_nul line = false ->
  (String.length clientName + String.length line + 3 <= BUFSIZE)%nat ->
  exists t,
    handleClient net clientSocket (Active clientName)
                 (Received (Client.send_text line)) w
    = Some (Relaying clientName line, w, []) /\
    handleClient net clientSocket (Relaying clientName line) r w
    = Some (Active clientName, w, t) /\
    send_targets t = filter (fun c => c ≠ clientSocket) (clients w) /\
    forall to bytes result,
      EvSend to bytes result ∈ t ->
      Client.receiveMessages [Received bytes]
      = Some [clientName +:+ ": " +:+ line].
Proof.
  intros Hfree Hname Hline Hfit.
  rewrite send_text_c_str.
  destruct (coalesced_tail_is_dropped net clientSocket clientName line
              EmptyString w) as (_ & Hrelay & _); try assumption.
  { rewrite app_empty, c_str_length. lia. }
  rewrite app_empty in Hrelay.
  eexists. split; [exact Hrelay |].
  rewrite handleClient_eq by assumption.
  split; [reflexivity |]. split.
  - cbn [send_targets]. rewrite send_targets_app, send_targets_deliveries.
    apply app_nil_r.
  - intros to bytes result Hin.
    apply elem_of_cons in Hin as [[=] | Hin].
    apply elem_of_cons in Hin as [[=] | Hin].
    apply elem_of_app in Hin as [Hin | Hin];
      [| apply list_elem_of_singleton in Hin; discriminate].
    apply elem_of_deliveries in Hin as (_ & _ & ->).
    assert (has_nul (chatMessage clientName line) = false) as Hnul.
    { unfold chatMessage. rewrite !has_nul_app, Hname, Hline. reflexivity. }
    destruct (coalesced_tail_is_dropped net clientSocket clientName
                (chatMessage clientName line) EmptyString w)
      as (_ & _ & Hprint); try assumption.
    { rewrite app_empty, c_str_length. unfold chatMessage.
      rewrite !length_app. cbn [String.length]. lia. }
    rewrite app_empty in Hprint. exact Hprint.
Qed.

Lemma line_round_trip_witness :
  exists t,
    handleClient two_unreachable 1 (Active "Al")
                 (Received (Client.send_text "hi")) three_listed
    = Some (Relaying "Al" "hi", three_listed, []) /\
    handleClient two_unreachable 1 (Relaying "Al" "hi") Shutdown three_listed
    = Some (Active "Al", three_listed, t) /\
    send_targets t = filter (fun c => c ≠ 1) (clients three_listed) /\
    forall to bytes result,
      EvSend to bytes result ∈ t ->
      Client.receiveMessages [Received bytes]
      = Some ["Al" +:+ ": " +:+ "hi"].
Proof.
  apply line_round_trip;
    [reflexivity | reflexivity | reflexivity | vm_compute; lia].
Defined.

End EndToEnd.

(** ** The life of a connection, stretch by stretch *)

Section Lifecycle.







Lemma stretch_keeps (net : Net) (k : SOCKET) (at_ : phase) (r : recv_result)
    (w : World) (next : phase) (w' : World) (t : list event) :
  clients_mutex w = false ->
  handleClient net k at_ r w = Some (next, w', t) ->
  clients_mutex w' = false /\
  (forall x, x ∈ closed w -> x ∈ closed w') /\
  (forall x, x ∈ clients w -> x ∉ clients w' ->
             k = x /\ exists n, at_ = Leaving n).
Proof.
  intros Hfree H. rewrite handleClient_eq in H by assumption.
  destruct at_;
    repeat match type of H with
      | context [if ?b then _ else _] => destruct b
      | context [string_of_buf ?x ?y] => destruct (string_of_buf x y)
      | context [clientNames ?w !! ?k] => destruct (clientNames w !! k)
      end;
    try discriminate; injection H as <- <- <-;
    cbn [clients_mutex closed clients set_closed set_clientNames];
    (split_and!; [assumption || reflexivity | set_solver |]);
    try (intros x Hin Hout; now destruct Hout).
  intros x Hin Hout. destruct (decide (k = x)) as [-> |]; [eauto |].
  destruct Hout. apply list_elem_of_filter. auto.
Qed.

Lemma accept_keeps (k : SOCKET) (w : World) (b : bool) (w' : World)
    (t : list event) :
  clients_mutex w = false ->
  accept_returns k w = Some (b, w', t) ->
  clients_mutex w' = false /\
  (forall x, x ∈ clients w -> x ∈ clients w') /\
  (forall x, x ≠ k -> x ∈ closed w -> x ∈ closed w').
Proof.
  intros Hfree H. unfold accept_returns in H.
  rewrite main_eq in H by assumption.
  destruct (bool_decide _); injection H as <- <- <-;
    cbn [clients_mutex closed clients set_closed set_clients];
    split_and!; try assumption; try set_solver.
Qed.

(** C9, as amended.  When the first read of an accepted connection
    brings no data, the handler reports it, closes the socket and
    returns, leaving [clients] and [clientNames] as they are.  No code
    but the removal block of the disconnect branch, run by a thread that
    was started with the same handle number, takes a handle out of
    [clients]; a turn of [main] only adds one.  So the handle of the
    failed connection stays among the broadcast targets, and stays
    closed, through any stretches of any threads and any further
    accepts, for as long as [accept] does not return its number again
    and no thread started with that number runs the removal block; and
    all that time every broadcast by another connection makes a [send]
    to it that fails and is reported. *)
Theorem refused_handle_stays_until_removed (net : Net) (s : SOCKET)
    (r : recv_result) (w : World) :
  clients_mutex w = false ->
  bytesReceived r <= 0 ->
  exists w1,
    handleClient net s Connecting r w
    = Some (Refused, w1, [EvCerr name_failed_line; EvClose s]) /\
    clients w1 = clients w /\
    clientNames w1 = clientNames w /\
    s ∈ closed w1 /\
    (forall net' k at_ r' w2 next w3 t x,
       clients_mutex w2 = false ->
       handleClient net' k at_ r' w2 = Some (next, w3, t) ->
       x ∈ clients w2 -> x ∉ clients w3 ->
       k = x /\ exists n, at_ = Leaving n) /\
    (forall k w2 b w3 t x,
       clients_mutex w2 = false ->
       accept_returns k w2 = Some (b, w3, t) ->
       x ∈ clients w2 -> x ∈ clients w3) /\
    (forall w2,
       s ∈ clients w ->
       undisturbed s w1 w2 ->
       s ∈ clients w2 /\ s ∈ closed w2 /\
       forall net' message sender,
         sender ≠ s ->
         exists t1 t2,
           broadcastMessage net' message sender w2
           = Some (tt, w2,
                   t1 ++ EvSend s (message +:+ String NUL EmptyString)
                                SOCKET_ERROR
                      :: EvCerr send_failed_line :: t2)).
Proof.
  intros Hfree Hr. eexists.
  rewrite handleClient_eq by assumption.
  assert ((0 <? bytesReceived r) = false) as -> by lia.
  split; [reflexivity |].
  cbn [clients clientNames closed set_closed].
  split_and!; try reflexivity.
  - set_solver.
  - intros net' k at_ r' w2 next w3 t x Hfree2 Hstep.
    now apply (stretch_keeps net' k at_ r' w2 next w3 t).
  - intros k w2 b w3 t x Hfree2 Hstep.
    now apply (accept_keeps k w2 b w3 t).
  - intros w2 Hlisted Hlater.
    assert (clients_mutex w2 = false /\ s ∈ clients w2 /\ s ∈ closed w2)
      as (Hfree2 & Hlisted2 & Hclosed2).
    { assert (clients_mutex (set_closed ({[s]} ∪ closed w) w) = false)
        as Hfree1 by assumption.
      assert (s ∈ clients (set_closed ({[s]} ∪ closed w) w)) as Hlisted1
        by assumption.
      assert (s ∈ closed (set_closed ({[s]} ∪ closed w) w)) as Hclosed1
        by (cbn; set_solver).
      clear Hfree Hlisted.
      induction Hlater as [w1 | k w1 b w1' t w1'' Hk Hstep _ IH
                              | net' k at_ r' w1 next w1' t w1'' Hnot Hstep _ IH].
      - auto.
      - destruct (accept_keeps _ _ _ _ _ Hfree1 Hstep) as (? & Hin & Hcl).
        apply IH; auto.
      - destruct (stretch_keeps _ _ _ _ _ _ _ _ Hfree1 Hstep)
          as (? & Hcl & Hin).
        apply IH; auto.
        destruct (decide (s ∈ clients w1')) as [|Hout]; [assumption |].
        destruct (Hin s Hlisted1 Hout) as [-> [n ->]].
        now destruct (Hnot eq_refl n). }
    split_and!; try assumption.
    intros net' message sender Hne.
    destruct (deliveries_closed_target net' (closed w2) message sender s
                (clients w2)) as (t1 & t2 & Hsplit);
      try assumption; [congruence |].
    exists (EvLock :: t1), (t2 ++ [EvUnlock]).
    rewrite broadcastMessage_eq by assumption.
    rewrite Hsplit. cbn [app]. now rewrite <- app_assoc.
Qed.

Lemma refused_handle_stays_until_removed_witness :
  exists w1,
    handleClient all_delivered 3 Connecting Shutdown three_listed
    = Some (Refused, w1, [EvCerr name_failed_line; EvClose 3]) /\
    clients w1 = clients three_listed /\
    clientNames w1 = clientNames three_listed /\
    3 ∈ closed w1 /\
    (forall net' k at_ r' w2 next w3 t x,
       clients_mutex w2 = false ->
       handleClient net' k at_ r' w2 = Some (next, w3, t) ->
       x ∈ clients w2 -> x ∉ clients w3 ->
       k = x /\ exists n, at_ = Leaving n) /\
    (forall k w2 b w3 t x,
       clients_mutex w2 = false ->
       accept_returns k w2 = Some (b, w3, t) ->
       x ∈ clients w2 -> x ∈ clients w3) /\
    (forall w2,
       3 ∈ clients three_listed ->
       undisturbed 3 w1 w2 ->
       3 ∈ clients w2 /\ 3 ∈ closed w2 /\
       forall net' message sender,
         sender ≠ 3 ->
         exists t1 t2,
           broadcastMessage net' message sender w2
           = Some (tt, w2,
                   t1 ++ EvSend 3 (message +:+ String NUL EmptyString)
                                SOCKET_ERROR
                      :: EvCerr send_failed_line :: t2)).
Proof.
  apply refused_handle_stays_until_removed; [reflexivity | vm_compute].
  discriminate.
Defined.

(** C9, as stated, fails.  Connection 1 fails its handshake and its
    socket is closed; [accept] then returns the number 1 for a new
    connection and [main] pushes it again.  The join notice of the next
    client is sent to the number 1 twice, and both [send]s succeed: the
    later broadcasts do not fail on it.  And when the new connection 1
    has joined and ended, its removal block erases every 1 from
    [clients]: the entry of the failed connection is gone. *)
Lemma reissued_number_is_not_left_closed :
  number_comes_back (world initial)
  = Some (Active "Bo",
          mkWorld [1; 1; 2] {[2 := "Bo"%string]} false ∅,
          [EvLock; EvUnlock;
           EvCerr name_failed_line; EvClose 1;
           EvLock; EvUnlock;
           EvLock; EvUnlock;
           EvLock; EvUnlock;
           EvCout "Client 'Bo' connected.";
           EvLock;
           EvSend 1 (c_str "Bo has joined the chat.") 24;
           EvSend 1 (c_str "Bo has joined the chat.") 24;
           EvUnlock]) /\
  exists t,
    number_comes_back_and_leaves (world initial)
    = Some (Announcing "Al",
            mkWorld [2] {[2 := "Bo"%string]} false ∅, t).
Proof. split; [reflexivity | eexists; reflexivity]. Qed.

Lemma count_sends_deliveries_any (net : Net) (shut : gset SOCKET)
    (message : string) (sender k : SOCKET) (cs : list SOCKET) :
  count_sends_to k (deliveries net shut message sender cs)
  = if bool_decide (k = sender) then 0%nat
    else length (filter (fun c => c = k) cs).
Proof.
  unfold deliveries. induction cs as [|c cs IH].
  - cbn. now destruct (bool_decide _).
  - rewrite !filter_cons.
    destruct (decide (c ≠ sender)) as [Hne | Heq].
    + cbn [flat_map].
      rewrite count_sends_app, count_sends_delivery, IH.
      destruct (decide (c = k)) as [-> | Hck].
      * rewrite bool_decide_eq_true_2 by reflexivity.
        rewrite bool_decide_eq_false_2 by assumption. reflexivity.
      * rewrite (bool_decide_eq_false_2 (c = k)) by assumption.
        reflexivity.
    + apply dec_stable in Heq as ->. rewrite IH.
      destruct (decide (sender = k)) as [-> | Hsk].
      * now rewrite bool_decide_eq_true_2.
      * reflexivity.
Qed.

(** X2.  A stretch that broadcasts a join notice, a chat message or a
    leave notice makes one [send] for every occurrence of a handle in
    [clients], its own handle excepted, and none to any other handle;
    all carry the same text and its terminator.  Where [clients] holds
    no handle twice -- which is so as long as [accept] never returns the
    same number twice -- that is exactly one [send] to every listed
    handle but the sender's. *)
Theorem broadcast_reaches_each_once (net : Net) (s : SOCKET)
    (at_ next : phase) (text : string) (r : recv_result) (w : World) :
  clients_mutex w = false ->
  lifecycle at_ r next (Some text) ->
  exists t,
    handleClient net s at_ r w = Some (next, w, t) /\
    (forall k,
       count_sends_to k t
       = if bool_decide (k = s) then 0%nat
         else length (filter (fun c => c = k) (clients w))) /\
    (NoDup (clients w) ->
     forall k,
       count_sends_to k t
       = if bool_decide (k ≠ s /\ k ∈ clients w) then 1%nat else 0%nat) /\
    (forall to bytes result,
       EvSend to bytes result ∈ t ->
       bytes = text +:+ String NUL EmptyString).
Proof.
  intros Hfree Hlife.
  rewrite handleClient_eq by assumption.
  inversion Hlife; subst; eexists; (split; [reflexivity |]); split_and!.
  all: try (intros k; cbn [count_sends_to];
            rewrite count_sends_app, count_sends_deliveries_any;
            cbn [count_sends_to]; lia).
  all: try (intros Hnodup k; cbn [count_sends_to];
            rewrite count_sends_app, count_sends_deliveries by assumption;
            cbn [count_sends_to]; lia).
  all: intros to bytes result Hin;
    repeat (apply elem_of_cons in Hin as [[=] | Hin]);
    (apply elem_of_app in Hin as [Hin | Hin];
     [| apply list_elem_of_singleton in Hin; discriminate]);
    now apply elem_of_deliveries in Hin as (_ & _ & ->).
Qed.

Lemma broadcast_reaches_each_once_witness :
  exists t,
    handleClient two_unreachable 1 (Relaying "Al" "hi") Shutdown three_listed
    = Some (Active "Al", three_listed, t) /\
    (forall k,
       count_sends_to k t
       = if bool_decide (k = 1) then 0%nat
         else length (filter (fun c => c = k) (clients three_listed))) /\
    (NoDup (clients three_listed) ->
     forall k,
       count_sends_to k t
       = if bool_decide (k ≠ 1 /\ k ∈ clients three_listed)
         then 1%nat else 0%nat) /\
    (forall to bytes result,
       EvSend to bytes result ∈ t ->
       bytes = ("Al" +:+ ": " +:+ "hi") +:+ String NUL EmptyString).
Proof.
  apply broadcast_reaches_each_once; [reflexivity | constructor].
Defined.

End Lifecycle.
